(** * Ant System engine of ecrs ([src/src/aco/ants_system.rs])

    Shallow embedding of [AntSystem::run], [iterate], [update_best],
    [find_best], [grade], [grade_one], [run_ants], [calc_prob], [end] and
    the free function [run_ant].

    Modelling choices:
    - [FMatrix] (nalgebra's [DMatrix<f64>]) is a record of its dimensions and
      an entry function; nalgebra iterates a matrix column by column, which
      [iter] reproduces.
    - The scalar type is a class [Scalar]; the engine is modelled over exact
      rationals [Q], the f64 rounding of [grade_one] over Rocq's primitive
      binary64 floats, and [powf] over the reals.
    - Panics (failed [unwrap], nalgebra shape assertions, empty [gen_range])
      are [None].
    - [rand::thread_rng] and the iteration order of [HashSet] are an oracle
      [Env]; the probe and [println!] are an event trace. *)

From Stdlib Require Import List Arith Lia Bool String.
From Stdlib Require Import ZArith QArith Qround Reals Permutation.
From Stdlib Require Import Lra Lqa.
From Stdlib Require Import Floats Qpower.
Import ListNotations.
Open Scope nat_scope.

(* ------------------------------------------------------------------ *)
(** ** Scalars and matrices *)

(** The arithmetic of [f64] used by the code: [0.0], [2.0], [+], [*], [/]. *)
Class Scalar (K : Type) := {
  zero : K;
  two : K;
  add : K -> K -> K;
  mul : K -> K -> K;
  div : K -> K -> K
}.

#[global] Instance Scalar_Q : Scalar Q := {
  zero := 0%Q; two := 2%Q; add := Qplus; mul := Qmult; div := Qdiv
}.

#[global] Instance Scalar_float : Scalar float := {
  zero := 0%float; two := 2%float;
  add := PrimFloat.add; mul := PrimFloat.mul; div := PrimFloat.div
}.

(** nalgebra's dynamically sized matrix. *)
Record Matrix (K : Type) := mkMatrix {
  nrows : nat;
  ncols : nat;
  entry : nat -> nat -> K
}.
Arguments mkMatrix {K}.
Arguments nrows {K}.
Arguments ncols {K}.
Arguments entry {K}.

Definition FMatrix := Matrix Q.

(** [m.iter()]: the entries in column-major order. *)
Definition iter {K} (m : Matrix K) : list K :=
  flat_map (fun j => map (fun i => entry m i j) (seq 0 (nrows m))) (seq 0 (ncols m)).

Definition same_shape {K L} (a : Matrix K) (b : Matrix L) : bool :=
  (nrows a =? nrows b) && (ncols a =? ncols b).

(** [a.component_mul(&b)]: panics on mismatched dimensions. *)
Definition component_mul {K} `{Scalar K} (a b : Matrix K) : option (Matrix K) :=
  if same_shape a b
  then Some (mkMatrix (nrows a) (ncols a) (fun i j => mul (entry a i j) (entry b i j)))
  else None.

(** [m.sum()]: a fold of [+] from [0] over [m.iter()]. *)
Definition msum {K} `{Scalar K} (m : Matrix K) : K :=
  fold_left add (iter m) zero.

(** [grade_one]: [s.component_mul(&self.cfg.weights).sum() / 2.0]. *)
Definition grade_one {K} `{Scalar K} (weights s : Matrix K) : option K :=
  match component_mul s weights with
  | Some p => Some (div (msum p) two)
  | None => None
  end.

(** The sum over all entries, row by row, in exact arithmetic. *)
Fixpoint qsum (n : nat) (f : nat -> Q) : Q :=
  match n with
  | O => 0%Q
  | S n' => (qsum n' f + f n')%Q
  end.

Definition entry_sum (r c : nat) (f : nat -> nat -> Q) : Q :=
  qsum r (fun i => qsum c (fun j => f i j)).

(** Exact value of a finite primitive float. *)
Definition float_to_Q (f : float) : option Q :=
  match Prim2SF f with
  | S754_zero _ => Some 0%Q
  | S754_finite s m e =>
      Some ((if s then (-1)%Q else 1%Q) * (Zpos m # 1) * Qpower (2 # 1) e)%Q
  | _ => None
  end.

(** The same view of the binary64 specification format [spec_float], in
    which [Prim2SF] presents a primitive float. *)
Definition sf_to_Q (x : spec_float) : option Q :=
  match x with
  | S754_zero _ => Some 0%Q
  | S754_finite s m e =>
      Some ((if s then (-1)%Q else 1%Q) * (Zpos m # 1) * Qpower (2 # 1) e)%Q
  | _ => None
  end.

(** [x] is finite and its value is [v]. *)
Definition sf_val (x : spec_float) (v : Q) : Prop :=
  exists q, sf_to_Q x = Some q /\ (q == v)%Q.

Definition sgnZ (s : bool) : Z := if s then (-1)%Z else 1%Z.

(** The sum of a list of integers. *)
Definition zsum (l : list Z) : Z := fold_right Z.add 0%Z l.

Definition matrix_forallb {K} (p : K -> bool) (m : Matrix K) : bool :=
  forallb p (iter m).

Definition integral_float (f : float) : bool :=
  match float_to_Q f with
  | Some q => (Qden (Qred q) =? 1)%positive
  | None => false
  end.

(** The exact rational view of a float matrix (entries assumed finite). *)
Definition to_Q_matrix (m : Matrix float) : FMatrix :=
  mkMatrix (nrows m) (ncols m)
    (fun i j => match float_to_Q (entry m i j) with Some q => q | None => 0%Q end).

(** [FMatrix::zeros(r, c)] *)
Definition zeros (r c : nat) : FMatrix := mkMatrix r c (fun _ _ => 0%Q).

(** [m[(i, j)] = v] (every index the code writes is in range). *)
Definition set (m : FMatrix) (i j : nat) (v : Q) : FMatrix :=
  mkMatrix (nrows m) (ncols m)
    (fun a b => if (a =? i) && (b =? j) then v else entry m a b).

(** [FMatrix::from_iterator(r, c, it)]: takes the first [r * c] items,
    panics when there are fewer. *)
Definition from_iterator {K} `{Scalar K} (r c : nat) (l : list K) : option (Matrix K) :=
  if List.length l <? r * c then None
  else Some (mkMatrix r c (fun i j => nth (i + j * r) l zero)).

(** [calc_prob]: [p.powf(alpha) * h.powf(beta)]; [powf] is the standard
    library's [f64::powf], a parameter here. *)
Definition calc_prob {K} `{Scalar K} (powf : K -> K -> K) (alpha beta p h : K) : K :=
  mul (powf p alpha) (powf h beta).

(** The probability matrix of [run_ants]: [pheromone.iter()] zipped with
    [heuristic.iter()], mapped by [calc_prob], collected with [from_iterator]
    at the pheromone's dimensions. *)
Definition prob_matrix {K} `{Scalar K} (powf : K -> K -> K) (alpha beta : K)
    (pheromone heuristic : Matrix K) : option (Matrix K) :=
  from_iterator (nrows pheromone) (ncols pheromone)
    (map (fun ph => calc_prob powf alpha beta (fst ph) (snd ph))
       (combine (iter pheromone) (iter heuristic))).

(* ------------------------------------------------------------------ *)
(** ** Solutions, probe events, randomness *)

(** [Solution] (solution.rs): an adjacency matrix and its cost. *)
Record Solution := mkSolution { matrix : FMatrix; cost : Q }.

(** Modelled from the spec: the [PartialOrd] of [Solution] (solution.rs is
    not under src/). "Solutions are totally ordered by ascending cost". *)
Definition sol_partial_cmp (a b : Solution) : option comparison :=
  Some (Qcompare (cost a) (cost b)).

(** [a > b] for a [PartialOrd]: [partial_cmp] is [Some Greater]. *)
Definition sol_gt (a b : Solution) : bool :=
  match sol_partial_cmp a b with Some Gt => true | _ => false end.

(** The calls on the probe, and the line printed by [run_ant]. *)
Inductive Event :=
| OnIterationStart (i : nat)
| OnIterationEnd (i : nat)
| OnCurrentBest (s : Solution)
| OnNewBest (s : Solution)
| OnPheromoneUpdate (old new : FMatrix)
| OnEnd
| Println (msg : string).

Definition no_solution_msg : string := "Could not find a solution".

(** [rand::thread_rng()] and the iteration order of a fresh [HashSet]:
    [gen_index pos n] is [gen_range(0..n)], [gen_real pos h] is
    [gen_range(0.0..h)], [hash_order pos n] the order in which
    [HashSet::from_iter(0..n)] yields its elements; [pos] counts draws. *)
Record Env := mkEnv {
  gen_index : nat -> nat -> nat;
  gen_real : nat -> Q -> Q;
  hash_order : nat -> nat -> list nat
}.

(** The contract of [rand] and of [HashSet]. *)
Definition env_ok (env : Env) : Prop :=
  (forall pos n, (0 < n)%nat -> (gen_index env pos n < n)%nat) /\
  (forall pos h, (0 < h)%Q -> (0 <= gen_real env pos h)%Q /\ (gen_real env pos h < h)%Q) /\
  (forall pos n, Permutation (hash_order env pos n) (seq 0 n)).

(* ------------------------------------------------------------------ *)
(** ** [run_ant] *)

Definition Qltb (a b : Q) : bool := negb (Qle_bool b a).

(** [unvisited.remove(&x)]: removing from a [HashSet] keeps the order of
    the other elements. *)
Definition remove_node (x : nat) (l : list nat) : list nat :=
  filter (fun y => negb (y =? x)) l.

(** [sum += row[*v]] over the unvisited nodes. *)
Definition row_sum (row : nat -> Q) (unvisited : list nat) : Q :=
  fold_left (fun s v => (s + row v)%Q) unvisited 0%Q.

(** The roulette scan: [r -= row[*v]; if r <= 0.0 { next = *v; break; }]. *)
Fixpoint select (row : nat -> Q) (r : Q) (l : list nat) (next : nat) : nat :=
  match l with
  | [] => next
  | v :: l' =>
      let r' := (r - row v)%Q in
      if Qle_bool r' 0 then v else select row r' l' next
  end.

(** The [while !unvisited.is_empty()] loop; [fuel] bounds the number of
    rounds ([None]: the loop has not finished). *)
Fixpoint ant_loop (fuel : nat) (env : Env) (prob : FMatrix) (n first last : nat)
    (unvisited : list nat) (sol : FMatrix) (pos : nat)
    : option (FMatrix * list Event * nat) :=
  match unvisited with
  | [] => Some (set (set sol last first 1%Q) first last 1%Q, [], pos)
  | _ :: _ =>
      let row := entry prob last in
      let sum := row_sum row unvisited in
      if negb (Qltb 0 sum) then Some (zeros n n, [Println no_solution_msg], pos)
      else
        match fuel with
        | O => None
        | S fuel' =>
            let r := gen_real env pos sum in
            let next := select row r unvisited last in
            let sol' := set (set sol last next 1%Q) next last 1%Q in
            ant_loop fuel' env prob n first next (remove_node next unvisited) sol' (S pos)
        end
  end.

(** [run_ant(prob)]; [gen_range(0..0)] panics. *)
Definition run_ant (env : Env) (prob : FMatrix) (pos : nat)
    : option (FMatrix * list Event * nat) :=
  let n := nrows prob in
  if n =? 0 then None
  else
    let unvisited0 := hash_order env pos n in
    let first := gen_index env pos n in
    ant_loop n env prob n first first (remove_node first unvisited0)
      (zeros n n) (S pos).

(* ------------------------------------------------------------------ *)
(** ** [run_ant] in f64 *)

(** The random source of the f64 construction: the draws of
    [gen_range(0.0..sum)] are f64 values. *)
Record Env64 := mkEnv64 {
  gen_index64 : nat -> nat -> nat;
  gen_real64 : nat -> float -> float;
  hash_order64 : nat -> nat -> list nat
}.

Definition zeros64 (r c : nat) : Matrix float := mkMatrix r c (fun _ _ => 0%float).

Definition set64 (m : Matrix float) (i j : nat) (v : float) : Matrix float :=
  mkMatrix (nrows m) (ncols m)
    (fun a b => if (a =? i) && (b =? j) then v else entry m a b).

(** [sum += row[*v]] over the unvisited nodes, in f64. *)
Definition row_sum64 (row : nat -> float) (unvisited : list nat) : float :=
  fold_left (fun s v => (s + row v)%float) unvisited 0%float.

(** The roulette scan in f64: [r -= row[*v]; if r <= 0.0 { next = *v; break; }];
    when no node is picked, [next] keeps its initial value [last]. *)
Fixpoint select64 (row : nat -> float) (r : float) (l : list nat) (next : nat) : nat :=
  match l with
  | [] => next
  | v :: l' =>
      let r' := (r - row v)%float in
      if (r' <=? 0)%float then v else select64 row r' l' next
  end.

(** The [while] loop in f64. [(0.0..sum).is_empty()] is [!(0.0 < sum)];
    rand's [gen_range] on a float range panics when [high - low] is not
    finite ("range overflow"), here when [sum] is +inf. *)
Fixpoint ant_loop64 (fuel : nat) (env : Env64) (prob : Matrix float) (n first last : nat)
    (unvisited : list nat) (sol : Matrix float) (pos : nat)
    : option (Matrix float * list Event * nat) :=
  match unvisited with
  | [] => Some (set64 (set64 sol last first 1%float) first last 1%float, [], pos)
  | _ :: _ =>
      let row := entry prob last in
      let sum := row_sum64 row unvisited in
      if negb (0 <? sum)%float then Some (zeros64 n n, [Println no_solution_msg], pos)
      else if PrimFloat.is_infinity (sum - 0)%float then None
      else
        match fuel with
        | O => None
        | S fuel' =>
            let r := gen_real64 env pos sum in
            let next := select64 row r unvisited last in
            let sol' := set64 (set64 sol last next 1%float) next last 1%float in
            ant_loop64 fuel' env prob n first next (remove_node next unvisited) sol' (S pos)
        end
  end.

(** [run_ant(prob)] in f64; [fuel] bounds the rounds of the loop, which
    need not remove a node in every round. *)
Definition run_ant64 (fuel : nat) (env : Env64) (prob : Matrix float) (pos : nat)
    : option (Matrix float * list Event * nat) :=
  let n := nrows prob in
  if n =? 0 then None
  else
    let unvisited0 := hash_order64 env pos n in
    let first := gen_index64 env pos n in
    ant_loop64 fuel env prob n first first (remove_node first unvisited0)
      (zeros64 n n) (S pos).

(** rand's [UniformFloat::sample_single(0.0, high)] for a draw whose 52
    random bits are the integer [k]: [value0_1 = k * 2^-52] and the result
    [value0_1 * (high - 0.0) + 0.0], which is returned when below [high]. *)
Definition sample_f64 (k high : float) : float :=
  ((k * 0x1p-52) * (high - 0) + 0)%float.

(* ------------------------------------------------------------------ *)
(** ** [find_best]: [sols.iter().min_by(|a, b| a.partial_cmp(b).unwrap()).unwrap()] *)

Section MinBy.
Context {A : Type}.
Variable partial_cmp : A -> A -> option comparison.

(** One step of [Iterator::min_by] ([cmp::min_by]: the accumulator is kept
    on [Less] and [Equal]); the comparator's [unwrap] panics on [None]. *)
Definition min_by_step (acc : option A) (y : A) : option A :=
  match acc with
  | None => None
  | Some x =>
      match partial_cmp x y with
      | None => None
      | Some Gt => Some y
      | Some _ => Some x
      end
  end.

(** [min_by] is a [reduce]: no element, [None], and the final [unwrap]
    panics. *)
Definition find_best (sols : list A) : option A :=
  match sols with
  | [] => None
  | x :: xs => fold_left min_by_step xs (Some x)
  end.

End MinBy.

(* ------------------------------------------------------------------ *)
(** ** The engine *)

(** [AntSystemCfg]; the probe is the event trace of [World]. *)
Record AntSystemCfg := mkCfg {
  weights : FMatrix;
  heuristic : FMatrix;
  alpha : Q;
  beta : Q;
  evaporation_rate : Q;
  ants_num : nat;
  iteration : nat;
  pheromone_update : FMatrix -> list Solution -> Q -> FMatrix
}.

Record AntSystem := mkAntSystem {
  cfg : AntSystemCfg;
  pheromone : FMatrix;
  best_sol : Solution
}.

(** What the outside sees: the probe calls and the printed lines, and the
    number of random draws taken so far. *)
Record World := mkWorld { trace : list Event; rng_pos : nat }.

Definition emit (w : World) (e : Event) : World :=
  mkWorld (trace w ++ [e]) (rng_pos w).

Definition with_best (s : AntSystem) (b : Solution) : AntSystem :=
  mkAntSystem (cfg s) (pheromone s) b.

Definition with_pheromone (s : AntSystem) (p : FMatrix) : AntSystem :=
  mkAntSystem (cfg s) p (best_sol s).

Section Engine.
Variable env : Env.
(** [f64::powf] *)
Variable powf : Q -> Q -> Q.

(** [(0..ants_num).map(|_| run_ant(&prob))], in order. *)
Fixpoint run_ants_loop (prob : FMatrix) (k : nat) (w : World)
    : option (list FMatrix * World) :=
  match k with
  | O => Some ([], w)
  | S k' =>
      match run_ant env prob (rng_pos w) with
      | None => None
      | Some (m, out, pos') =>
          match run_ants_loop prob k' (mkWorld (trace w ++ out) pos') with
          | None => None
          | Some (ms, w') => Some (m :: ms, w')
          end
      end
  end.

Definition run_ants (s : AntSystem) (w : World) : option (list FMatrix * World) :=
  match prob_matrix powf (alpha (cfg s)) (beta (cfg s)) (pheromone s) (heuristic (cfg s)) with
  | None => None
  | Some prob => run_ants_loop prob (ants_num (cfg s)) w
  end.

(** [grade]: every matrix with its [grade_one] cost. *)
Fixpoint grade (weights : FMatrix) (ms : list FMatrix) : option (list Solution) :=
  match ms with
  | [] => Some []
  | m :: ms' =>
      match grade_one weights m, grade weights ms' with
      | Some c, Some sols => Some (mkSolution m c :: sols)
      | _, _ => None
      end
  end.

(** [update_best]: [if self.best_sol > *current_best { on_new_best; clone }]. *)
Definition update_best (s : AntSystem) (w : World) (current_best : Solution)
    : AntSystem * World :=
  if sol_gt (best_sol s) current_best
  then (with_best s current_best, emit w (OnNewBest current_best))
  else (s, w).

Definition iterate (s : AntSystem) (w : World) : option (AntSystem * World) :=
  match run_ants s w with
  | None => None
  | Some (sols_m, w1) =>
      match grade (weights (cfg s)) sols_m with
      | None => None
      | Some sols =>
          match find_best sol_partial_cmp sols with
          | None => None
          | Some best =>
              let w2 := emit w1 (OnCurrentBest best) in
              let (s3, w3) := update_best s w2 best in
              let new_pheromone :=
                pheromone_update (cfg s3) (pheromone s3) sols (evaporation_rate (cfg s3)) in
              let w4 := emit w3 (OnPheromoneUpdate (pheromone s3) new_pheromone) in
              Some (with_pheromone s3 new_pheromone, w4)
          end
      end
  end.

(** [for i in 0..self.cfg.iteration { on_iteration_start(i); iterate; on_iteration_end(i) }],
    from iteration [i] with [k] iterations left. *)
Fixpoint run_from (k i : nat) (s : AntSystem) (w : World) : option (AntSystem * World) :=
  match k with
  | O => Some (s, w)
  | S k' =>
      match iterate s (emit w (OnIterationStart i)) with
      | None => None
      | Some (s', w') => run_from k' (S i) s' (emit w' (OnIterationEnd i))
      end
  end.

(** [end]: [on_end]. *)
Definition end_ (s : AntSystem) (w : World) : AntSystem * World := (s, emit w OnEnd).

Definition run (s : AntSystem) (w : World) : option (AntSystem * World) :=
  match run_from (iteration (cfg s)) 0 s w with
  | None => None
  | Some (s', w') => Some (end_ s' w')
  end.

End Engine.

(* ------------------------------------------------------------------ *)
(** ** Concrete inputs *)

Definition ones (n : nat) : FMatrix := mkMatrix n n (fun _ _ => 1%Q).

(** A closed tour over three nodes, as an f64 adjacency matrix. *)
Definition tour3_f : Matrix float :=
  mkMatrix 3 3 (fun i j => if i =? j then 0%float else 1%float).

(** Integer-valued f64 weights: [2^53] on the edge 0-1, [1] on the edge 0-2. *)
Definition weights3_f : Matrix float :=
  mkMatrix 3 3 (fun i j =>
    if ((i =? 0) && (j =? 1)) || ((i =? 1) && (j =? 0)) then 9007199254740992%float
    else if ((i =? 0) && (j =? 2)) || ((i =? 2) && (j =? 0)) then 1%float
    else 0%float).

(** The same tour and small integer weights ([i + j] off the diagonal) as
    f64 matrices, and the integers they hold. *)
Definition tour3_z (i j : nat) : Z := if i =? j then 0%Z else 1%Z.

Definition dist3_z (i j : nat) : Z := if i =? j then 0%Z else Z.of_nat (i + j).

Definition dist3_f : Matrix float :=
  mkMatrix 3 3 (fun i j =>
    if i =? j then 0%float else if i + j =? 1 then 1%float
    else if i + j =? 2 then 2%float else 3%float).

(** Five nodes: from node 0 the weights are [1] to node 1 and [5 * 2^-55]
    to nodes 2, 3, 4; all other weights off the diagonal are [1]. *)
Definition prob5_f : Matrix float :=
  mkMatrix 5 5 (fun i j =>
    if i =? j then 0%float
    else if i =? 0 then (if j =? 1 then 1%float else 0x1.4p-53%float)
    else 1%float).

(** Start at node 0, [HashSet] order [0..n]; the first draw has all 52
    random bits set, the others none. *)
Definition env64_miss : Env64 :=
  mkEnv64 (fun _ _ => 0) (fun pos h => if pos =? 1 then sample_f64 4503599627370495 h
                                       else sample_f64 0 h)
    (fun _ n => seq 0 n).

Definition ones_R (n : nat) : Matrix R := mkMatrix n n (fun _ _ => 1%R).

(** A deterministic random source: index 0, real 0, [HashSet] order [0..n]. *)
Definition env0 : Env := mkEnv (fun _ _ => 0) (fun _ _ => 0%Q) (fun _ n => seq 0 n).

(* ------------------------------------------------------------------ *)
(** ** [powf] over the reals *)

#[global] Instance Scalar_R : Scalar R := {
  zero := 0%R; two := 2%R; add := Rplus; mul := Rmult; div := Rdiv
}.

(** [f64::powf] for a non-negative base: [pow(x, 0) = 1],
    [pow(+0, y) = +0] for [y > 0], and [x^y = exp (y ln x)] for [x > 0].
    Outside this domain (a negative base, or [pow(+0, y)] with [y < 0]) f64
    gives a negative number, NaN or an infinity; the model returns [0]
    there, and no statement below uses it. *)
Definition powf_R (x y : R) : R :=
  if Rlt_dec 0 x then Rpower x y
  else if Req_EM_T y 0 then 1%R
  else 0%R.

(** [f64::powf] (the C library's [pow]) on the arguments where the C
    standard fixes its result: [pow(x, ±0) = 1] (Annex F.10.4.4);
    [pow(x, 1) = x], the exact result being representable (for [x = ±0] and
    [x = ±inf] this is Annex F's rule for odd integer exponents); and
    [pow(x, 2) = +inf] for [|x| >= 2^512], whose exact square is at least
    [2^1024] and overflows, and an overflowing result is [HUGE_VAL]
    (C11 7.12.1). The model returns NaN on the other arguments, which no
    statement below uses. *)
Definition powf64 (x y : float) : float :=
  if (y =? 0)%float then 1%float
  else if (y =? 1)%float then x
  else if (y =? 2)%float && (0x1p512 <=? PrimFloat.abs x)%float then infinity
  else nan.

(** A 1x1 pheromone [0.0] and a 1x1 heuristic [2^600]. *)
Definition pher0_f : Matrix float := mkMatrix 1 1 (fun _ _ => 0%float).
Definition heur_big_f : Matrix float := mkMatrix 1 1 (fun _ _ => 0x1p600%float).

(* ------------------------------------------------------------------ *)
(** ** Tours *)

(** [{u, v}] as an undirected edge: [(a, b)] is [(u, v)] or [(v, u)]. *)
Definition edge (u v a b : nat) : bool :=
  ((a =? u) && (b =? v)) || ((a =? v) && (b =? u)).

(** [(a, b)] are consecutive, in either direction, on the path [p]. *)
Fixpoint path_adj (p : list nat) (a b : nat) : bool :=
  match p with
  | x :: ((y :: _) as t) => edge x y a b || path_adj t a b
  | _ => false
  end.

(** [(a, b)] are consecutive on the closed cycle [p]. *)
Definition cyc_adj (p : list nat) (a b : nat) : bool :=
  path_adj p a b || edge (last p 0) (hd 0 p) a b.

(** The sum of row [i] and of column [j] of a matrix. *)
Definition mrow_sum (m : FMatrix) (i : nat) : Q :=
  fold_left Qplus (map (fun j => entry m i j) (seq 0 (ncols m))) 0%Q.

Definition mcol_sum (m : FMatrix) (j : nat) : Q :=
  fold_left Qplus (map (fun i => entry m i j) (seq 0 (nrows m))) 0%Q.

(* ------------------------------------------------------------------ *)
(** ** f64 costs with NaN *)

(** [f64::partial_cmp]: [None] when either side is NaN. *)
Definition float_partial_cmp (a b : float) : option comparison :=
  match PrimFloat.compare a b with
  | FEq => Some Eq
  | FLt => Some Lt
  | FGt => Some Gt
  | FNotComparable => None
  end.

(** A [Solution] with its f64 cost. *)
Record Solution64 := mkSolution64 { matrix64 : Matrix float; cost64 : float }.

(** Modelled from the spec: the [PartialOrd] of [Solution] compares the
    costs (solution.rs is not under src/). *)
Definition sol64_partial_cmp (a b : Solution64) : option comparison :=
  float_partial_cmp (cost64 a) (cost64 b).

(* ------------------------------------------------------------------ *)
(** ** Shape of the event trace *)

Definition is_println (e : Event) : Prop :=
  match e with Println _ => True | _ => False end.

(** The events of iteration [i], which goes from the state [s] with the
    random source at [pos] to the state [s'] with it at [pos']: the start;
    the lines printed by the ants, whose matrices [ms] are those [run_ants]
    builds from [s]; the iteration-best [best], the first cheapest of the
    graded [ms]; [on_new_best best] when the retained best costs more, and
    then [best] is retained, or nothing, and the retained best is kept; the
    update from the old pheromone to the strategy's result, which [s']
    holds; the end. *)
Definition iteration_events (env : Env) (powf : Q -> Q -> Q) (i : nat)
    (s : AntSystem) (pos : nat) (s' : AntSystem) (pos' : nat) (evs : list Event) : Prop :=
  exists prob ms diags sols best nb,
    prob_matrix powf (alpha (cfg s)) (beta (cfg s)) (pheromone s) (heuristic (cfg s)) = Some prob /\
    run_ants_loop env prob (ants_num (cfg s)) (mkWorld [] pos) = Some (ms, mkWorld diags pos') /\
    Forall is_println diags /\
    grade (weights (cfg s)) ms = Some sols /\
    find_best sol_partial_cmp sols = Some best /\
    ((sol_gt (best_sol s) best = true /\ nb = [OnNewBest best] /\ best_sol s' = best) \/
     (sol_gt (best_sol s) best = false /\ nb = [] /\ best_sol s' = best_sol s)) /\
    pheromone s' = pheromone_update (cfg s) (pheromone s) sols (evaporation_rate (cfg s)) /\
    cfg s' = cfg s /\
    evs = [OnIterationStart i] ++ diags ++ [OnCurrentBest best] ++ nb ++
          [OnPheromoneUpdate (pheromone s) (pheromone s'); OnIterationEnd i].

(** [k] consecutive iterations numbered from [i], from the state [s] with
    the random source at [pos] to the state [s'']; each iteration starts
    from the state and the random source the previous one left. *)
Inductive iterations_trace (env : Env) (powf : Q -> Q -> Q)
    : nat -> nat -> AntSystem -> nat -> AntSystem -> list Event -> Prop :=
| itr_done (i : nat) (s : AntSystem) (pos : nat) : iterations_trace env powf i 0 s pos s []
| itr_step (i k : nat) (s : AntSystem) (pos : nat) (s1 : AntSystem) (pos1 : nat)
    (s2 : AntSystem) (evs evs' : list Event) :
    iteration_events env powf i s pos s1 pos1 evs ->
    iterations_trace env powf (S i) k s1 pos1 s2 evs' ->
    iterations_trace env powf i (S k) s pos s2 (evs ++ evs').

(* ------------------------------------------------------------------ *)
(** ** A concrete configuration *)

(** [f64::powf] at integral exponents, exactly. *)
Definition powf_int (x y : Q) : Q := Qpower x (Qfloor y).

(** Three nodes, all weights and heuristics 1, [alpha = beta = 1], two ants,
    [iters] iterations, and an update strategy [upd]. *)
Definition cfg3 (iters : nat) (upd : FMatrix -> list Solution -> Q -> FMatrix) : AntSystemCfg :=
  mkCfg (ones 3) (ones 3) 1%Q 1%Q (1 # 2)%Q 2 iters upd.

(** The strategy that keeps the pheromone, and one that returns a 1x1 matrix. *)
Definition keep_update (p : FMatrix) (_ : list Solution) (_ : Q) : FMatrix := p.
Definition shrink_update (_ : FMatrix) (_ : list Solution) (_ : Q) : FMatrix := ones 1.

(** The retained best before the first iteration. *)
Definition best0 : Solution := mkSolution (zeros 3 3) 100%Q.

Definition sys3 (iters : nat) (upd : FMatrix -> list Solution -> Q -> FMatrix) : AntSystem :=
  mkAntSystem (cfg3 iters upd) (ones 3) best0.

Definition world0 : World := mkWorld [] 0.

(** A row of weights [1, 0, 2] for nodes 0, 1, 2. *)
Definition row102 (v : nat) : Q := if v =? 0 then 1%Q else if v =? 1 then 0%Q else 2%Q.

(** The dimensions of a configuration: [n x n] heuristic and weights, and
    at least one ant; nothing on the update strategy. *)
Definition cfg_dims (n : nat) (c : AntSystemCfg) : Prop :=
  nrows (heuristic c) = n /\ ncols (heuristic c) = n /\
  nrows (weights c) = n /\ ncols (weights c) = n /\ 1 <= ants_num c.

(** The configuration the engine expects: [n x n] matrices, at least one
    ant, and a strategy that keeps the pheromone [n x n]. *)
Definition cfg_ok (n : nat) (c : AntSystemCfg) : Prop :=
  nrows (heuristic c) = n /\ ncols (heuristic c) = n /\
  nrows (weights c) = n /\ ncols (weights c) = n /\
  1 <= ants_num c /\
  (forall p sols e, nrows p = n -> ncols p = n ->
     nrows (pheromone_update c p sols e) = n /\ ncols (pheromone_update c p sols e) = n).

(** The length of the path [p] under the weights [W], and of the closed
    tour [q]: the weight of every step, and of the step back to the start. *)
Fixpoint path_len (W : FMatrix) (p : list nat) : Q :=
  match p with
  | x :: ((y :: _) as t) => (entry W x y + path_len W t)%Q
  | _ => 0%Q
  end.

Definition tour_length (W : FMatrix) (q : list nat) : Q :=
  (path_len W q + entry W (last q 0%nat) (hd 0%nat q))%Q.

(** Symmetric distances over three nodes: [i + j] off the diagonal. *)
Definition dist3 : FMatrix :=
  mkMatrix 3 3 (fun i j => if i =? j then 0%Q else inject_Z (Z.of_nat (i + j))).

(* ================================================================== *)
(** * Proofs *)

(* ------------------------------------------------------------------ *)
(** ** Sums in exact arithmetic *)

Lemma fold_left_Qplus_acc (l : list Q) (a : Q) :
  (fold_left Qplus l a == a + fold_right Qplus 0 l)%Q.
Proof.
  revert a; induction l as [|x l IH]; intro a; simpl.
  - ring.
  - rewrite IH. ring.
Qed.

Lemma fold_right_Qplus_app (l1 l2 : list Q) :
  (fold_right Qplus 0 (l1 ++ l2) == fold_right Qplus 0 l1 + fold_right Qplus 0 l2)%Q.
Proof.
  induction l1 as [|x l1 IH]; simpl.
  - ring.
  - rewrite IH. ring.
Qed.

Lemma fold_right_map_seq (n : nat) (f : nat -> Q) :
  (fold_right Qplus 0 (map f (seq 0 n)) == qsum n f)%Q.
Proof.
  induction n as [|n IH].
  - reflexivity.
  - rewrite seq_S, map_app, fold_right_Qplus_app, IH. simpl. ring.
Qed.

Lemma fold_right_flat_map (g : nat -> list Q) (l : list nat) :
  (fold_right Qplus 0 (flat_map g l) ==
   fold_right Qplus 0 (map (fun j => fold_right Qplus 0 (g j)) l))%Q.
Proof.
  induction l as [|x l IH]; simpl.
  - reflexivity.
  - rewrite fold_right_Qplus_app, IH. reflexivity.
Qed.

Lemma qsum_ext (n : nat) (f g : nat -> Q) :
  (forall k, k < n -> (f k == g k)%Q) -> (qsum n f == qsum n g)%Q.
Proof.
  induction n as [|n IH]; intro H; simpl.
  - reflexivity.
  - rewrite IH by (intros; apply H; lia). rewrite (H n) by lia. reflexivity.
Qed.

Lemma qsum_plus (n : nat) (f g : nat -> Q) :
  (qsum n (fun k => f k + g k) == qsum n f + qsum n g)%Q.
Proof.
  induction n as [|n IH]; simpl.
  - ring.
  - rewrite IH. ring.
Qed.

Lemma qsum_swap (r c : nat) (f : nat -> nat -> Q) :
  (qsum c (fun j => qsum r (fun i => f i j)) ==
   qsum r (fun i => qsum c (fun j => f i j)))%Q.
Proof.
  induction c as [|c IH]; simpl.
  - induction r as [|r IHr]; simpl; [reflexivity | rewrite <- IHr; ring].
  - rewrite IH, <- qsum_plus. reflexivity.
Qed.

(** [m.sum()] is the sum of all entries, in exact arithmetic. *)
Lemma msum_Q (m : FMatrix) :
  (msum m == entry_sum (nrows m) (ncols m) (entry m))%Q.
Proof.
  unfold msum, iter, entry_sum. cbn [add zero Scalar_Q].
  rewrite fold_left_Qplus_acc, fold_right_flat_map, fold_right_map_seq.
  rewrite <- qsum_swap.
  rewrite (qsum_ext _ _ (fun j => qsum (nrows m) (fun i => entry m i j))).
  - ring.
  - intros k _. apply fold_right_map_seq.
Qed.

(* ------------------------------------------------------------------ *)
(** ** Exact binary64 operations on integers *)

Lemma iter_pos_iter {A} (f : A -> A) (p : positive) (x : A) :
  iter_pos f p x = Pos.iter f x p.
Proof.
  revert x. induction p as [p IH|p IH|]; intro x; simpl.
  - rewrite !IH. repeat rewrite Pos.iter_swap. reflexivity.
  - rewrite !IH. reflexivity.
  - reflexivity.
Qed.

Lemma shr_1_even (q : Z) :
  shr_1 {| shr_m := 2 * q; shr_r := false; shr_s := false |} =
  {| shr_m := q; shr_r := false; shr_s := false |}.
Proof. destruct q; reflexivity. Qed.

Lemma iter_shr_1 (n : positive) (q : Z) :
  Pos.iter shr_1 {| shr_m := q * 2 ^ Zpos n; shr_r := false; shr_s := false |} n =
  {| shr_m := q; shr_r := false; shr_s := false |}.
Proof.
  revert q. induction n as [|n IH] using Pos.peano_ind; intro q.
  - simpl. rewrite Z.mul_comm. apply shr_1_even.
  - rewrite Pos.iter_succ_r.
    replace (q * 2 ^ Z.pos (Pos.succ n))%Z with (2 * (q * 2 ^ Z.pos n))%Z.
    + rewrite shr_1_even. apply IH.
    + rewrite Pos2Z.inj_succ, Z.pow_succ_r by lia. ring.
Qed.

Lemma digits2_bounds (m : positive) :
  (2 ^ (Zpos (digits2_pos m) - 1) <= Zpos m < 2 ^ Zpos (digits2_pos m))%Z.
Proof.
  induction m as [m IH|m IH|].
  - change (digits2_pos m~1) with (Pos.succ (digits2_pos m)).
    set (D := Z.pos (digits2_pos m)) in *.
    assert (HD : Z.pos (Pos.succ (digits2_pos m)) = (D + 1)%Z) by (unfold D; lia).
    rewrite HD. replace (D + 1 - 1)%Z with D by lia.
    assert (E : (2 ^ (D + 1) = 2 * 2 ^ D)%Z) by (rewrite Z.pow_add_r, Z.pow_1_r by lia; ring).
    assert (E2 : (2 ^ D = 2 * 2 ^ (D - 1))%Z)
      by (rewrite <- Z.pow_succ_r by lia; f_equal; lia).
    rewrite E. rewrite (Pos2Z.inj_xI m). lia.
  - change (digits2_pos m~0) with (Pos.succ (digits2_pos m)).
    set (D := Z.pos (digits2_pos m)) in *.
    assert (HD : Z.pos (Pos.succ (digits2_pos m)) = (D + 1)%Z) by (unfold D; lia).
    rewrite HD. replace (D + 1 - 1)%Z with D by lia.
    assert (E : (2 ^ (D + 1) = 2 * 2 ^ D)%Z) by (rewrite Z.pow_add_r, Z.pow_1_r by lia; ring).
    assert (E2 : (2 ^ D = 2 * 2 ^ (D - 1))%Z)
      by (rewrite <- Z.pow_succ_r by lia; f_equal; lia).
    rewrite E. rewrite (Pos2Z.inj_xO m). lia.
  - simpl. lia.
Qed.

Lemma digits2_unique (m : positive) (D : Z) :
  (1 <= D)%Z -> (2 ^ (D - 1) <= Zpos m < 2 ^ D)%Z -> Zpos (digits2_pos m) = D.
Proof.
  intros HD [H1 H2]. destruct (digits2_bounds m) as [B1 B2].
  assert (Hd : (1 <= Zpos (digits2_pos m))%Z) by lia.
  destruct (Z.lt_trichotomy (Zpos (digits2_pos m)) D) as [Hlt|[Heq|Hgt]]; [|exact Heq|].
  - assert (2 ^ Zpos (digits2_pos m) <= 2 ^ (D - 1))%Z by (apply Z.pow_le_mono_r; lia). lia.
  - assert (2 ^ D <= 2 ^ (Zpos (digits2_pos m) - 1))%Z by (apply Z.pow_le_mono_r; lia). lia.
Qed.

Lemma digits2_shift (q : positive) (n : Z) :
  (0 <= n)%Z ->
  forall m : positive, Zpos m = (Zpos q * 2 ^ n)%Z ->
  Zpos (digits2_pos m) = (Zpos (digits2_pos q) + n)%Z.
Proof.
  intros Hn m Hm. apply digits2_unique; [lia|].
  destruct (digits2_bounds q) as [B1 B2]. rewrite Hm.
  replace (Z.pos (digits2_pos q) + n - 1)%Z with ((Z.pos (digits2_pos q) - 1) + n)%Z by lia.
  rewrite !Z.pow_add_r by lia.
  assert (0 < 2 ^ n)%Z by (apply Z.pow_pos_nonneg; lia).
  split; nia.
Qed.

Lemma Qpower2_nonneg_Z (n : Z) : (0 <= n)%Z -> (Qpower (2 # 1) n == inject_Z (2 ^ n))%Q.
Proof.
  destruct n as [|p|p]; intro Hn; [reflexivity| |lia].
  assert (H1 : forall q : positive, (1 ^ q = 1)%positive).
  { induction q as [|q IH] using Pos.peano_ind; [reflexivity|].
    rewrite Pos.pow_succ_r, IH. reflexivity. }
  unfold Qpower. rewrite Qpower_decomp_positive, H1. reflexivity.
Qed.

Lemma Qpower2_split (a b : Z) :
  (Qpower (2 # 1) (a + b) == Qpower (2 # 1) a * Qpower (2 # 1) b)%Q.
Proof. apply Qpower_plus. discriminate. Qed.

Lemma Qeq_Z (a b e k : Z) :
  (inject_Z a * Qpower (2 # 1) e == inject_Z b * Qpower (2 # 1) k)%Q <->
  (a * 2 ^ (e - Z.min e k) = b * 2 ^ (k - Z.min e k))%Z.
Proof.
  set (t := Z.min e k).
  assert (He : (Qpower (2 # 1) e == inject_Z (2 ^ (e - t)) * Qpower (2 # 1) t)%Q).
  { rewrite <- Qpower2_nonneg_Z by lia. rewrite <- Qpower2_split. f_equiv. ring. }
  assert (Hk : (Qpower (2 # 1) k == inject_Z (2 ^ (k - t)) * Qpower (2 # 1) t)%Q).
  { rewrite <- Qpower2_nonneg_Z by lia. rewrite <- Qpower2_split. f_equiv. ring. }
  assert (Ht : ~ (Qpower (2 # 1) t == 0)%Q) by (apply Qpower_not_0; discriminate).
  rewrite He, Hk. split.
  - intro H. apply inject_Z_injective. rewrite !inject_Z_mult.
    apply (Qmult_inj_r _ _ _ Ht). rewrite <- !Qmult_assoc. exact H.
  - intro H. rewrite !Qmult_assoc, <- !inject_Z_mult, H. reflexivity.
Qed.


Lemma sf_to_Q_finite (s : bool) (m : positive) (e : Z) :
  exists q, sf_to_Q (S754_finite s m e) = Some q /\
    (q == inject_Z (sgnZ s * Zpos m) * Qpower (2 # 1) e)%Q.
Proof.
  eexists; split; [reflexivity|]. rewrite inject_Z_mult.
  change (Z.pos m # 1)%Q with (inject_Z (Z.pos m)). generalize (Qpower (2 # 1) e); intro P. destruct s; unfold sgnZ; cbn [inject_Z]; ring.
Qed.

Lemma shr_nonpos (mrs : shr_record) (e n : Z) : (n <= 0)%Z -> shr mrs e n = (mrs, e).
Proof. destruct n; intro H; [reflexivity|lia|reflexivity]. Qed.

Lemma fexp64 (x : Z) : fexp 53 1024 x = Z.max (x - 53) (-1074).
Proof. reflexivity. Qed.

Lemma shr_fexp_noshift (m : positive) (e : Z) :
  (fexp 53 1024 (Zpos (digits2_pos m) + e) <= e)%Z ->
  shr_fexp 53 1024 (Zpos m) e loc_Exact =
  ({| shr_m := Zpos m; shr_r := false; shr_s := false |}, e).
Proof. intro H. unfold shr_fexp. cbn [Zdigits2 shr_record_of_loc]. apply shr_nonpos. lia. Qed.

Lemma shr_fexp_shift (m q : positive) (e p : Z) :
  (0 < p)%Z -> Zpos m = (Zpos q * 2 ^ p)%Z ->
  fexp 53 1024 (Zpos (digits2_pos m) + e) = (e + p)%Z ->
  shr_fexp 53 1024 (Zpos m) e loc_Exact =
  ({| shr_m := Zpos q; shr_r := false; shr_s := false |}, (e + p)%Z).
Proof.
  intros Hp Hm Hf. unfold shr_fexp. cbn [Zdigits2 shr_record_of_loc]. rewrite Hf.
  replace (e + p - e)%Z with p by lia.
  destruct p as [|pp|pp]; try lia.
  unfold shr. rewrite iter_pos_iter, Hm, iter_shr_1. reflexivity.
Qed.

Lemma Z_abs_sgn (s : bool) : Z.abs (sgnZ s) = 1%Z.
Proof. destruct s; reflexivity. Qed.

(** Rounding a value that is representable is exact. *)
Lemma round_exact (s : bool) (m : positive) (e k V : Z) :
  (-1074 <= k)%Z -> (k <= 970)%Z -> (e <= 971)%Z -> (Z.abs V <= 2 ^ 53)%Z ->
  (inject_Z (sgnZ s * Zpos m) * Qpower (2 # 1) e == inject_Z V * Qpower (2 # 1) k)%Q ->
  sf_val (binary_round_aux 53 1024 s (Zpos m) e loc_Exact) (inject_Z V * Qpower (2 # 1) k).
Proof.
  intros Hk1 Hk2 He HV Hval0.
  pose proof Hval0 as Hval. apply Qeq_Z in Hval.
  set (t := Z.min e k) in Hval.
  assert (Ht1 : (0 <= e - t)%Z) by lia. assert (Ht2 : (0 <= k - t)%Z) by lia.
  assert (HA : (Zpos m * 2 ^ (e - t) = Z.abs V * 2 ^ (k - t))%Z).
  { apply (f_equal Z.abs) in Hval. rewrite !Z.abs_mul, Z_abs_sgn in Hval.
    rewrite (Z.abs_eq (2 ^ (e - t))), (Z.abs_eq (2 ^ (k - t))) in Hval
      by (apply Z.pow_nonneg; lia).
    simpl Z.abs in Hval. lia. }
  set (d := Zpos (digits2_pos m)).
  destruct (digits2_bounds m) as [Hd1 Hd2]. fold d in Hd1, Hd2.
  assert (Hd0 : (1 <= d)%Z) by (unfold d; lia).
  assert (Hde : (d + e <= 54 + k)%Z).
  { assert (H1 : (2 ^ (d - 1 + (e - t)) <= 2 ^ (53 + (k - t)))%Z).
    { rewrite !Z.pow_add_r by lia.
      assert (0 < 2 ^ (e - t))%Z by (apply Z.pow_pos_nonneg; lia).
      assert (0 <= 2 ^ (k - t))%Z by (apply Z.pow_nonneg; lia).
      nia. }
    apply Z.pow_le_mono_r_iff in H1; lia. }
  set (f := fexp 53 1024 (d + e)).
  assert (Hf : f = Z.max (d + e - 53) (-1074)) by reflexivity.
  unfold binary_round_aux.
  destruct (Z_le_gt_dec f e) as [Hle|Hgt].
  - rewrite shr_fexp_noshift by exact Hle.
    cbn [loc_of_shr_record shr_m round_nearest_even].
    rewrite shr_fexp_noshift by exact Hle. cbn [shr_m].
    replace (e <=? 1024 - 53)%Z with true by (symmetry; apply Z.leb_le; lia).
    destruct (sf_to_Q_finite s m e) as [q [Hq Hqv]]. exists q. split; [exact Hq|].
    rewrite Hqv. exact Hval0.
  - set (n := (f - e)%Z).
    assert (Hq : exists q, (0 < q)%Z /\ Zpos m = (q * 2 ^ n)%Z /\ (f <= k + 1)%Z).
    { destruct (Z_le_gt_dec (d + e) (53 + k)) as [Hsm|Hbig].
      - assert (Hfk : (f <= k)%Z) by lia.
        assert (Het : t = e) by (unfold t; lia).
        rewrite Het, Z.sub_diag, Z.pow_0_r, Z.mul_1_r in HA.
        exists (Z.abs V * 2 ^ (k - f))%Z. split; [|split; [|lia]].
        + assert (0 < 2 ^ (k - f))%Z by (apply Z.pow_pos_nonneg; lia).
          assert (0 < Z.abs V)%Z.
          { assert (0 < 2 ^ (k - e))%Z by (apply Z.pow_pos_nonneg; lia). nia. }
          nia.
        + rewrite HA, <- Z.mul_assoc, <- Z.pow_add_r by lia. f_equal. f_equal. unfold n. lia.
      - assert (Hfk : f = (k + 1)%Z) by lia.
        assert (Hm : Zpos m = (2 ^ (d - 1))%Z).
        { assert (E : (2 ^ (d - 1) * 2 ^ (e - t) = 2 ^ 53 * 2 ^ (k - t))%Z)
            by (rewrite <- !Z.pow_add_r by lia; f_equal; lia).
          assert (0 < 2 ^ (e - t))%Z by (apply Z.pow_pos_nonneg; lia).
          assert (0 <= 2 ^ (k - t))%Z by (apply Z.pow_nonneg; lia).
          nia. }
        exists (2 ^ 52)%Z. split; [lia|split; [|lia]].
        rewrite Hm, <- Z.pow_add_r by lia. f_equal. unfold n. lia. }
    destruct Hq as [[|qp|qp] [Hq0 [Hmq Hfk]]]; try lia.
    assert (Hdq : d = (Zpos (digits2_pos qp) + n)%Z)
      by (apply digits2_shift; [unfold n; lia | exact Hmq]).
    rewrite (shr_fexp_shift m qp e n) by (unfold n; lia || exact Hmq || (fold d; unfold n; lia)).
    cbn [loc_of_shr_record shr_m round_nearest_even].
    rewrite shr_fexp_noshift by (rewrite fexp64; unfold n in *; lia).
    cbn [shr_m].
    replace (e + n <=? 1024 - 53)%Z with true by (symmetry; apply Z.leb_le; unfold n; lia).
    destruct (sf_to_Q_finite s qp (e + n)) as [q [Hq Hqv]]. exists q. split; [exact Hq|].
    rewrite Hqv, <- Hval0, Hmq, Qpower2_split, Z.mul_assoc, inject_Z_mult.
    rewrite (Qpower2_nonneg_Z n) by (unfold n; lia). rewrite !inject_Z_mult. generalize (Qpower (2 # 1) e); intro P. ring.
Qed.

Lemma sf_val_Qeq (x : spec_float) (v w : Q) : sf_val x v -> (v == w)%Q -> sf_val x w.
Proof. intros [q [Hq Hv]] Hw. exists q. split; [exact Hq|]. rewrite Hv. exact Hw. Qed.

Lemma valid_finite (s : bool) (m : positive) (e : Z) :
  valid_binary (S754_finite s m e) = true ->
  fexp 53 1024 (Zpos (digits2_pos m) + e) = e /\ (e <= 971)%Z.
Proof.
  cbn [valid_binary]. unfold bounded, canonical_mantissa. intro H.
  apply andb_prop in H. destruct H as [H1 H2].
  apply Z.eqb_eq in H1. apply Z.leb_le in H2. change (e <= 971)%Z in H2. split; [exact H1 | exact H2].
Qed.

Lemma sf_val_zero (s : bool) (a : Z) : sf_val (S754_zero s) (inject_Z a) -> a = 0%Z.
Proof.
  intros [q [Hq Hv]]. injection Hq as <-. apply inject_Z_injective. rewrite <- Hv. reflexivity.
Qed.

Lemma sf_val_finite_eq (s : bool) (m : positive) (e a : Z) :
  sf_val (S754_finite s m e) (inject_Z a) ->
  (inject_Z (sgnZ s * Zpos m) * Qpower (2 # 1) e == inject_Z a * Qpower (2 # 1) 0)%Q.
Proof.
  intros [q [Hq Hv]]. destruct (sf_to_Q_finite s m e) as [q' [Hq' Hv']].
  rewrite Hq in Hq'. injection Hq' as <-. rewrite <- Hv', Hv. simpl. ring.
Qed.

(** An integer-valued finite float: its value is non-zero and, when it is at
    most [2^53] in magnitude, its exponent is at most [53]. *)
Lemma sf_int_bounds (s : bool) (m : positive) (e a : Z) :
  sf_val (S754_finite s m e) (inject_Z a) ->
  a <> 0%Z /\ ((Z.abs a <= 2 ^ 53)%Z -> (e <= 53)%Z) /\
  ((e < 0)%Z -> (2 ^ (- e) <= Zpos m)%Z).
Proof.
  intro H. apply sf_val_finite_eq, Qeq_Z in H.
  destruct (Z_le_gt_dec 0 e) as [He|He].
  - replace (Z.min e 0) with 0%Z in H by lia.
    rewrite Z.sub_0_r, Z.sub_diag, Z.pow_0_r, Z.mul_1_r in H.
    assert (Hp : (0 < 2 ^ e)%Z) by (apply Z.pow_pos_nonneg; lia).
    assert (Habs : Z.abs a = (Zpos m * 2 ^ e)%Z).
    { rewrite <- H, !Z.abs_mul, Z_abs_sgn. simpl Z.abs. rewrite (Z.abs_eq (2 ^ e)) by lia. ring. }
    split; [|split].
    + intro Ha. rewrite Ha in Habs. change (Z.abs 0) with 0%Z in Habs. assert (0 < Zpos m)%Z by lia. nia.
    + intro Hb. assert (H2 : (2 ^ e <= 2 ^ 53)%Z) by nia.
      apply Z.pow_le_mono_r_iff in H2; lia.
    + lia.
  - replace (Z.min e 0) with e in H by lia.
    rewrite Z.sub_diag, Z.pow_0_r, Z.mul_1_r, Z.sub_0_l in H.
    assert (Hp : (0 < 2 ^ (- e))%Z) by (apply Z.pow_pos_nonneg; lia).
    assert (Habs : Zpos m = (Z.abs a * 2 ^ (- e))%Z).
    { apply (f_equal Z.abs) in H. rewrite !Z.abs_mul, Z_abs_sgn, (Z.abs_eq (2 ^ (- e))) in H by lia.
      simpl Z.abs in H. lia. }
    split; [|split].
    + intro Ha. rewrite Ha in Habs. simpl in Habs. lia.
    + lia.
    + intros _. rewrite Habs. assert (Z.abs a <> 0%Z) by (intro Hz; rewrite Hz in Habs; simpl in Habs; lia).
      nia.
Qed.

Lemma sgnZ_xorb (a b : bool) : sgnZ (xorb a b) = (sgnZ a * sgnZ b)%Z.
Proof. destruct a, b; reflexivity. Qed.

(** Multiplying two integer-valued floats is exact while the product is at
    most [2^53] in magnitude. *)
Lemma sf_mul_exact (x y : spec_float) (a b : Z) :
  valid_binary x = true -> valid_binary y = true ->
  sf_val x (inject_Z a) -> sf_val y (inject_Z b) -> (Z.abs (a * b) <= 2 ^ 53)%Z ->
  sf_val (SFmul 53 1024 x y) (inject_Z (a * b)).
Proof.
  intros Vx Vy Hx Hy Hab.
  destruct x as [sx| sx | | sx mx ex]; try (destruct Hx as [q [Hq _]]; discriminate);
  destruct y as [sy| sy | | sy my ey]; try (destruct Hy as [q [Hq _]]; discriminate).
  - apply sf_val_zero in Hx. subst a. exists 0%Q. split; reflexivity.
  - apply sf_val_zero in Hx. subst a. exists 0%Q. split; reflexivity.
  - apply sf_val_zero in Hy. subst b. exists 0%Q. split; [reflexivity|]. rewrite Z.mul_0_r. reflexivity.
  - destruct (sf_int_bounds _ _ _ _ Hx) as [Ha0 [Ha _]].
    destruct (sf_int_bounds _ _ _ _ Hy) as [Hb0 [Hb _]].
    assert (Hax : (Z.abs a <= 2 ^ 53)%Z).
    { rewrite Z.abs_mul in Hab. assert (0 < Z.abs b)%Z by lia. nia. }
    assert (Hbx : (Z.abs b <= 2 ^ 53)%Z).
    { rewrite Z.abs_mul in Hab. assert (0 < Z.abs a)%Z by lia. nia. }
    specialize (Ha Hax). specialize (Hb Hbx).
    apply sf_val_finite_eq in Hx. apply sf_val_finite_eq in Hy.
    cbn [SFmul].
    apply (sf_val_Qeq _ (inject_Z (a * b) * Qpower (2 # 1) 0)); [| simpl; ring].
    apply round_exact; [lia|lia|lia|exact Hab|].
    rewrite Pos2Z.inj_mul, sgnZ_xorb, Qpower2_split.
    simpl Qpower in Hx, Hy |- *.
    rewrite !inject_Z_mult in *.
    generalize dependent (Qpower (2 # 1) ex); intros P Hx.
    generalize dependent (Qpower (2 # 1) ey); intros P' Hy.
    transitivity ((inject_Z (sgnZ sx) * inject_Z (Z.pos mx) * P) *
                  (inject_Z (sgnZ sy) * inject_Z (Z.pos my) * P'))%Q; [ring|].
    rewrite Hx, Hy. ring.
Qed.

Lemma iter_xO (m d : positive) : Zpos (Pos.iter xO m d) = (Zpos m * 2 ^ Zpos d)%Z.
Proof.
  induction d as [|d IH] using Pos.peano_ind.
  - simpl. lia.
  - rewrite Pos.iter_succ, Pos2Z.inj_xO, IH, Pos2Z.inj_succ, Z.pow_succ_r by lia. ring.
Qed.

Lemma shl_align_spec (m : positive) (e e' : Z) :
  let '(m', e'') := shl_align m e e' in
  (e'' <= e)%Z /\ Zpos m' = (Zpos m * 2 ^ (e - e''))%Z.
Proof.
  unfold shl_align. destruct (e' - e)%Z as [|d|d] eqn:E.
  - rewrite Z.sub_diag. split; lia.
  - rewrite Z.sub_diag. split; lia.
  - rewrite iter_xO. split; [lia|]. do 2 f_equal. lia.
Qed.

Lemma Qpow_shift (z : Z) (e e' : Z) : (e' <= e)%Z ->
  (inject_Z (z * 2 ^ (e - e')) * Qpower (2 # 1) e' == inject_Z z * Qpower (2 # 1) e)%Q.
Proof.
  intro H. rewrite inject_Z_mult, <- Qpower2_nonneg_Z by lia.
  rewrite <- Qmult_assoc, <- Qpower2_split. do 2 f_equiv. ring.
Qed.

Lemma binary_round_exact (s : bool) (m : positive) (e k V : Z) :
  (-1074 <= k)%Z -> (k <= 970)%Z -> (e <= 971)%Z -> (Z.abs V <= 2 ^ 53)%Z ->
  (inject_Z (sgnZ s * Zpos m) * Qpower (2 # 1) e == inject_Z V * Qpower (2 # 1) k)%Q ->
  sf_val (binary_round 53 1024 s m e) (inject_Z V * Qpower (2 # 1) k).
Proof.
  intros Hk1 Hk2 He HV Hval. unfold binary_round.
  pose proof (shl_align_spec m e (fexp 53 1024 (Zpos (digits2_pos m) + e))) as Hs.
  destruct (shl_align m e _) as [m' e''] eqn:E. destruct Hs as [Hle Hm'].
  apply round_exact; [lia|lia|lia|exact HV|].
  rewrite <- Hval, Hm', Z.mul_assoc. apply Qpow_shift. exact Hle.
Qed.

Lemma cond_Zopp_sgn (s : bool) (z : Z) : cond_Zopp s z = (sgnZ s * z)%Z.
Proof. destruct s; unfold cond_Zopp, sgnZ; cbv iota; lia. Qed.

(** Adding two integer-valued floats is exact while the sum is at most
    [2^53] in magnitude. *)
Lemma sf_add_exact (x y : spec_float) (a b : Z) :
  valid_binary x = true -> valid_binary y = true ->
  sf_val x (inject_Z a) -> sf_val y (inject_Z b) -> (Z.abs (a + b) <= 2 ^ 53)%Z ->
  sf_val (SFadd 53 1024 x y) (inject_Z (a + b)).
Proof.
  intros Vx Vy Hx Hy Hab.
  destruct x as [sx| sx | | sx mx ex]; try (destruct Hx as [q [Hq _]]; discriminate);
  destruct y as [sy| sy | | sy my ey]; try (destruct Hy as [q [Hq _]]; discriminate).
  - apply sf_val_zero in Hx. apply sf_val_zero in Hy. subst a b.
    exists 0%Q. split; [destruct sx, sy; reflexivity | reflexivity].
  - apply sf_val_zero in Hx. subst a. exact Hy.
  - apply sf_val_zero in Hy. subst b. rewrite Z.add_0_r. exact Hx.
  - apply valid_finite in Vx. apply valid_finite in Vy.
    apply sf_val_finite_eq in Hx. apply sf_val_finite_eq in Hy.
    cbn [SFadd].
    set (ez := Z.min ex ey).
    pose proof (shl_align_spec mx ex ez) as Sx. destruct (shl_align mx ex ez) as [mx' ex'] eqn:Ex.
    pose proof (shl_align_spec my ey ez) as Sy. destruct (shl_align my ey ez) as [my' ey'] eqn:Ey.
    assert (Hex' : ex' = ez).
    { revert Ex. unfold shl_align. destruct (ez - ex)%Z eqn:D; intro Hh; injection Hh; intros; subst; unfold ez in *; lia. }
    assert (Hey' : ey' = ez).
    { revert Ey. unfold shl_align. destruct (ez - ey)%Z eqn:D; intro Hh; injection Hh; intros; subst; unfold ez in *; lia. }
    subst ex' ey'. destruct Sx as [_ Hmx]. destruct Sy as [_ Hmy]. cbn [fst].
    rewrite !cond_Zopp_sgn.
    set (M := (sgnZ sx * Zpos mx' + sgnZ sy * Zpos my')%Z).
    assert (HM : (inject_Z M * Qpower (2 # 1) ez == inject_Z (a + b) * Qpower (2 # 1) 0)%Q).
    { unfold M. rewrite Hmx, Hmy, !Z.mul_assoc, inject_Z_plus, Qmult_plus_distr_l.
      rewrite !Qpow_shift by (unfold ez; lia). rewrite Hx, Hy. simpl. rewrite inject_Z_plus. ring. }
    apply (sf_val_Qeq _ (inject_Z (a + b) * Qpower (2 # 1) 0)); [| simpl; ring].
    unfold binary_normalize. destruct M as [|p|p] eqn:EM.
    + exists 0%Q. split; [reflexivity|]. rewrite <- HM. simpl. ring.
    + apply binary_round_exact; [lia|lia|unfold ez; lia|exact Hab|exact HM].
    + apply binary_round_exact; [lia|lia|unfold ez; lia|exact Hab|exact HM].
Qed.

Lemma div_eucl_pow (x : Z) :
  Z.div_eucl (x * 2 ^ 53) (Zpos 4503599627370496) = ((2 * x)%Z, 0%Z).
Proof.
  assert (E : forall a b, Z.div_eucl a b = (Z.div a b, Z.modulo a b))
    by (intros a b; unfold Z.div, Z.modulo; destruct (Z.div_eucl a b); reflexivity).
  rewrite E.
  replace (x * 2 ^ 53)%Z with ((2 * x) * Zpos 4503599627370496)%Z by lia.
  rewrite Z.div_mul, Z_mod_mult by discriminate. reflexivity.
Qed.

Lemma div_core_two (mx : positive) (ex : Z) :
  Zpos (digits2_pos mx) = 53%Z -> (-52 <= ex)%Z ->
  SFdiv_core_binary 53 1024 (Zpos mx) ex (Zpos 4503599627370496) (-51) =
  ((2 * Zpos mx)%Z, (ex - 2)%Z, loc_Exact).
Proof.
  intros Hd He. unfold SFdiv_core_binary. cbn [Zdigits2]. rewrite Hd.
  replace (Z.min (fexp 53 1024 (53 + ex - (Zpos (digits2_pos 4503599627370496) + -51))) (ex - -51))
    with (ex - 2)%Z by (rewrite fexp64; change (Zpos (digits2_pos 4503599627370496)) with 53%Z; lia).
  replace (ex - -51 - (ex - 2))%Z with 53%Z by lia.
  rewrite Z.shiftl_mul_pow2 by lia. rewrite div_eucl_pow. reflexivity.
Qed.

(** Halving an integer-valued float of magnitude at most [2^53] is exact. *)
Lemma sf_div2_exact (x : spec_float) (a : Z) :
  valid_binary x = true -> sf_val x (inject_Z a) -> (Z.abs a <= 2 ^ 53)%Z ->
  sf_val (SFdiv 53 1024 x (S754_finite false 4503599627370496 (-51))) (inject_Z a / 2).
Proof.
  intros Vx Hx Ha.
  destruct x as [sx| sx | | sx mx ex]; try (destruct Hx as [q [Hq _]]; discriminate).
  - apply sf_val_zero in Hx. subst a. exists 0%Q. split; reflexivity.
  - apply valid_finite in Vx. destruct Vx as [Hc He].
    destruct (sf_int_bounds _ _ _ _ Hx) as [Ha0 [Hb Hneg]].
    destruct (digits2_bounds mx) as [D1 D2].
    assert (Hd : Zpos (digits2_pos mx) = 53%Z /\ (-52 <= ex)%Z).
    { rewrite fexp64 in Hc.
      destruct (Z_le_gt_dec 0 ex) as [H0|H0]; [split; lia|].
      specialize (Hneg ltac:(lia)).
      assert (Hd53 : Zpos (digits2_pos mx) = 53%Z).
      { destruct (Z_le_gt_dec (Zpos (digits2_pos mx) + ex - 53) (-1074)) as [Hl|Hl]; [|lia].
        assert (H2 : (2 ^ (- ex) < 2 ^ Zpos (digits2_pos mx))%Z) by lia.
        apply Z.pow_lt_mono_r_iff in H2; lia. }
      split; [exact Hd53|].
      rewrite Hd53 in D2.
      assert (H2 : (2 ^ (- ex) < 2 ^ 53)%Z) by lia.
      apply Z.pow_lt_mono_r_iff in H2; lia. }
    destruct Hd as [Hd Hex].
    apply sf_val_finite_eq in Hx.
    cbn [SFdiv]. rewrite div_core_two by assumption.
    rewrite xorb_false_r.
    apply (sf_val_Qeq _ (inject_Z a * Qpower (2 # 1) (-1))); [| simpl; field].
    apply round_exact; [lia|lia|lia|exact Ha|].
    transitivity (inject_Z a * Qpower (2 # 1) 0 * (1 # 2))%Q; [| change (Qpower (2 # 1) 0) with 1%Q; change (Qpower (2 # 1) (-1)) with (1 # 2)%Q; ring].
    rewrite <- Hx. replace (ex - 2)%Z with (ex + -2)%Z by lia.
    rewrite Qpower2_split. change (Qpower (2 # 1) (-2)) with (1 # 4)%Q.
    rewrite (Pos2Z.inj_mul 2 mx), !inject_Z_mult. generalize (Qpower (2 # 1) ex); intro P.
    change (inject_Z (Zpos 2)) with (2 # 1)%Q. ring.
Qed.

Lemma float_to_Q_sf (f : float) : float_to_Q f = sf_to_Q (Prim2SF f).
Proof. reflexivity. Qed.

Lemma two_sf : Prim2SF 2%float = S754_finite false 4503599627370496 (-51).
Proof. vm_compute. reflexivity. Qed.

Lemma zero_sf : Prim2SF 0%float = S754_zero false.
Proof. vm_compute. reflexivity. Qed.

Lemma fmul_exact (x y : float) (a b : Z) :
  sf_val (Prim2SF x) (inject_Z a) -> sf_val (Prim2SF y) (inject_Z b) ->
  (Z.abs (a * b) <= 2 ^ 53)%Z -> sf_val (Prim2SF (x * y)%float) (inject_Z (a * b)).
Proof.
  intros Hx Hy Hab. rewrite mul_spec. apply sf_mul_exact; auto using Prim2SF_valid.
Qed.

Lemma fadd_exact (x y : float) (a b : Z) :
  sf_val (Prim2SF x) (inject_Z a) -> sf_val (Prim2SF y) (inject_Z b) ->
  (Z.abs (a + b) <= 2 ^ 53)%Z -> sf_val (Prim2SF (x + y)%float) (inject_Z (a + b)).
Proof.
  intros Hx Hy Hab. rewrite add_spec. apply sf_add_exact; auto using Prim2SF_valid.
Qed.

Lemma fdiv2_exact (x : float) (a : Z) :
  sf_val (Prim2SF x) (inject_Z a) -> (Z.abs a <= 2 ^ 53)%Z ->
  sf_val (Prim2SF (x / 2)%float) (inject_Z a / 2).
Proof.
  intros Hx Ha. rewrite div_spec, two_sf. apply sf_div2_exact; auto using Prim2SF_valid.
Qed.

(** Summing integer-valued floats left to right is exact while every
    running total is at most [2^53] in magnitude. *)
Lemma fold_add_exact (l : list float) (zl : list Z) :
  Forall2 (fun x z => sf_val (Prim2SF x) (inject_Z z)) l zl ->
  forall (acc : float) (a0 : Z),
  sf_val (Prim2SF acc) (inject_Z a0) ->
  (forall k, (Z.abs (a0 + zsum (firstn k zl)) <= 2 ^ 53)%Z) ->
  sf_val (Prim2SF (fold_left PrimFloat.add l acc)) (inject_Z (a0 + zsum zl)).
Proof.
  induction 1 as [|x z l zl Hxz _ IH]; intros acc a0 Hacc Hk.
  - cbn. rewrite Z.add_0_r. exact Hacc.
  - cbn [fold_left zsum fold_right]. rewrite Z.add_assoc.
    apply IH.
    + apply fadd_exact; [exact Hacc | exact Hxz |].
      specialize (Hk 1). cbn [firstn zsum fold_right] in Hk. rewrite Z.add_0_r in Hk. exact Hk.
    + intro k. specialize (Hk (S k)). cbn [firstn zsum fold_right] in Hk.
      unfold zsum. rewrite <- Z.add_assoc. exact Hk.
Qed.

Lemma iter_Forall2 {A B} (P : A -> B -> Prop) (r c : nat) (f : nat -> nat -> A)
    (g : nat -> nat -> B) :
  (forall i j, i < r -> j < c -> P (f i j) (g i j)) ->
  Forall2 P (iter (mkMatrix r c f)) (iter (mkMatrix r c g)).
Proof.
  intro H. unfold iter. cbn [nrows ncols entry].
  assert (Hcol : forall j, j < c ->
            Forall2 P (map (fun i => f i j) (seq 0 r)) (map (fun i => g i j) (seq 0 r))).
  { intros j Hj.
    assert (Hr : forall i, In i (seq 0 r) -> i < r) by (intros i Hi; apply in_seq in Hi; lia).
    revert Hr. induction (seq 0 r) as [|i is IHi]; intro Hr; cbn [map]; [constructor|].
    constructor.
    - apply H; [apply Hr; left; reflexivity | exact Hj].
    - apply IHi. intros i' Hi'. apply Hr. right. exact Hi'. }
  assert (Hc : forall j, In j (seq 0 c) -> j < c) by (intros j Hj; apply in_seq in Hj; lia).
  revert Hc. induction (seq 0 c) as [|j js IH]; intro Hc; cbn [flat_map]; [constructor|].
  apply Forall2_app.
  - apply Hcol. apply Hc. left. reflexivity.
  - apply IH. intros j' Hj'. apply Hc. right. exact Hj'.
Qed.

Lemma iter_map {A B} (h : A -> B) (r c : nat) (g : nat -> nat -> A) :
  iter (mkMatrix r c (fun i j => h (g i j))) = map h (iter (mkMatrix r c g)).
Proof.
  unfold iter. cbn [nrows ncols entry].
  induction (seq 0 c) as [|j js IH]; cbn [flat_map]; [reflexivity|].
  rewrite map_app, map_map, IH. reflexivity.
Qed.

Lemma zsum_Q (l : list Z) :
  (inject_Z (zsum l) == fold_right Qplus 0 (map inject_Z l))%Q.
Proof.
  induction l as [|z l IH]; cbn [zsum fold_right map]; [reflexivity|].
  rewrite inject_Z_plus. fold (zsum l). rewrite IH. reflexivity.
Qed.

Lemma zsum_entry_sum (r c : nat) (g : nat -> nat -> Z) :
  (inject_Z (zsum (iter (mkMatrix r c g))) ==
   entry_sum r c (fun i j => inject_Z (g i j)))%Q.
Proof.
  rewrite zsum_Q, <- iter_map.
  pose proof (msum_Q (mkMatrix r c (fun i j => inject_Z (g i j)))) as H.
  unfold msum in H. cbn [add zero Scalar_Q nrows ncols entry] in H.
  rewrite fold_left_Qplus_acc in H. rewrite <- H. ring.
Qed.

(* ------------------------------------------------------------------ *)
(** ** C1: grading *)

(** C1 (amended). For an f64 solution matrix [M] and f64 weights [W] of
    identical dimensions whose entries are the integers [mz i j] and
    [wz i j], [grade_one] returns exactly the sum over all entries of
    [M ⊙ W] divided by 2, provided every product [mz i j * wz i j] and every
    running total of these products (in nalgebra's column-major order) is
    at most [2^53] in magnitude. *)
Theorem grade_one_f64_exact (M W : Matrix float) (mz wz : nat -> nat -> Z)
    (Hr : nrows M = nrows W) (Hc : ncols M = ncols W)
    (HM : forall i j, i < nrows M -> j < ncols M ->
            exists q, float_to_Q (entry M i j) = Some q /\ (q == inject_Z (mz i j))%Q)
    (HW : forall i j, i < nrows M -> j < ncols M ->
            exists q, float_to_Q (entry W i j) = Some q /\ (q == inject_Z (wz i j))%Q)
    (Hprod : forall i j, i < nrows M -> j < ncols M -> (Z.abs (mz i j * wz i j) <= 2 ^ 53)%Z)
    (Hsum : forall k, (Z.abs (zsum (firstn k (iter (mkMatrix (nrows M) (ncols M)
                                    (fun i j => mz i j * wz i j))))) <= 2 ^ 53)%Z) :
  exists f q, grade_one W M = Some f /\ float_to_Q f = Some q /\
    (q == entry_sum (nrows M) (ncols M) (fun i j => inject_Z (mz i j * wz i j)) / 2)%Q.
Proof.
  unfold grade_one, component_mul, same_shape.
  rewrite <- Hr, <- Hc, !Nat.eqb_refl. cbn [andb].
  set (r := nrows M) in *. set (c := ncols M) in *.
  set (zm := mkMatrix r c (fun i j => (mz i j * wz i j)%Z)) in *.
  assert (Hl : Forall2 (fun x z => sf_val (Prim2SF x) (inject_Z z))
                 (iter (mkMatrix r c (fun i j => mul (entry M i j) (entry W i j)))) (iter zm)).
  { apply iter_Forall2. intros i j Hi Hj. cbn [mul Scalar_float].
    apply fmul_exact; [| | apply Hprod; assumption].
    - destruct (HM i j Hi Hj) as [q [Hq Hv]]. exists q. split; [exact Hq | exact Hv].
    - destruct (HW i j Hi Hj) as [q [Hq Hv]]. exists q. split; [exact Hq | exact Hv]. }
  assert (Hs : sf_val (Prim2SF (msum (mkMatrix r c (fun i j => mul (entry M i j) (entry W i j)))))
                 (inject_Z (0 + zsum (iter zm)))).
  { unfold msum. cbn [add zero Scalar_float].
    apply fold_add_exact; [exact Hl | rewrite zero_sf; exists 0%Q; split; reflexivity |].
    intro k. exact (Hsum k). }
  rewrite Z.add_0_l in Hs.
  assert (Hb : (Z.abs (zsum (iter zm)) <= 2 ^ 53)%Z).
  { specialize (Hsum (List.length (iter zm))). rewrite firstn_all in Hsum. exact Hsum. }
  destruct (fdiv2_exact _ _ Hs Hb) as [q [Hq Hv]].
  exists (div (msum (mkMatrix r c (fun i j => mul (entry M i j) (entry W i j)))) two), q.
  split; [reflexivity|]. split; [exact Hq|].
  rewrite Hv. unfold zm. rewrite zsum_entry_sum. reflexivity.
Qed.

(** Witness for [grade_one_f64_exact]: the three-node tour [tour3_f] with
    the small integer weights [dist3_f]. *)
Lemma grade_one_f64_exact_witness :
  exists f q, grade_one dist3_f tour3_f = Some f /\ float_to_Q f = Some q /\
    (q == entry_sum 3 3 (fun i j => inject_Z (tour3_z i j * dist3_z i j)) / 2)%Q.
Proof.
  apply (grade_one_f64_exact tour3_f dist3_f tour3_z dist3_z); [reflexivity | reflexivity | | | |].
  - intros i j Hi Hj. cbn in Hi, Hj.
    destruct i as [|[|[|i]]]; [| | |lia]; destruct j as [|[|[|j]]]; try lia;
      eexists; (split; [vm_compute; reflexivity | vm_compute; reflexivity]).
  - intros i j Hi Hj. cbn in Hi, Hj.
    destruct i as [|[|[|i]]]; [| | |lia]; destruct j as [|[|[|j]]]; try lia;
      eexists; (split; [vm_compute; reflexivity | vm_compute; reflexivity]).
  - intros i j Hi Hj. cbn in Hi, Hj. apply Z.leb_le.
    destruct i as [|[|[|i]]]; [| | |lia]; destruct j as [|[|[|j]]]; try lia; vm_compute; reflexivity.
  - intro k. apply Z.leb_le.
    do 10 (destruct k as [|k]; [vm_compute; reflexivity|]). vm_compute. reflexivity.
Defined.

(** C1 counterexample. With the integer-valued f64 tour [tour3_f] and
    weights [weights3_f], the exact value of sum(M ⊙ W) / 2 is [2^53 + 1],
    but the f64 [grade_one] returns [2^53]: the result is not exact. *)
Lemma grade_one_f64_not_exact :
  matrix_forallb integral_float tour3_f = true /\
  matrix_forallb integral_float weights3_f = true /\
  grade_one weights3_f tour3_f = Some 9007199254740992%float /\
  float_to_Q 9007199254740992%float = Some (9007199254740992 # 1)%Q /\
  option_map Qred (grade_one (to_Q_matrix weights3_f) (to_Q_matrix tour3_f))
    = Some (9007199254740993 # 1)%Q /\
  ~ (9007199254740992 # 1 == 9007199254740993 # 1)%Q.
Proof.
  split; [vm_compute; reflexivity|].
  split; [vm_compute; reflexivity|].
  split; [vm_compute; reflexivity|].
  split; [vm_compute; reflexivity|].
  split; [vm_compute; reflexivity|].
  unfold Qeq; simpl; discriminate.
Qed.

(* ------------------------------------------------------------------ *)
(** ** C2: the probability matrix *)

Lemma length_iter {K} (m : Matrix K) : List.length (iter m) = ncols m * nrows m.
Proof.
  unfold iter. rewrite <- (length_seq (ncols m) 0) at 2.
  induction (seq 0 (ncols m)) as [|c l IH]; simpl.
  - reflexivity.
  - rewrite length_app, length_map, length_seq, IH. reflexivity.
Qed.

Lemma nth_map_seq {K} (g : nat -> K) (r k : nat) (d : K) :
  k < r -> nth k (map g (seq 0 r)) d = g k.
Proof.
  intro Hk. rewrite (nth_indep _ d (g 0)) by (rewrite length_map, length_seq; lia).
  rewrite map_nth, seq_nth by lia. reflexivity.
Qed.

Lemma nth_flat_map_seq {K} (f : nat -> nat -> K) (r c s i j : nat) (d : K) :
  i < r -> j < c ->
  nth (i + j * r) (flat_map (fun j => map (fun i => f i j) (seq 0 r)) (seq s c)) d
  = f i (s + j).
Proof.
  revert s j. induction c as [|c IH]; intros s j Hi Hj; [lia|].
  simpl. destruct j as [|j].
  - rewrite app_nth1 by (rewrite length_map, length_seq; lia).
    rewrite nth_map_seq by lia. f_equal; lia.
  - rewrite app_nth2 by (rewrite length_map, length_seq; lia).
    rewrite length_map, length_seq.
    replace (i + S j * r - r) with (i + j * r) by lia.
    rewrite IH by lia. f_equal; lia.
Qed.

Lemma nth_iter {K} (m : Matrix K) (i j : nat) (d : K) :
  i < nrows m -> j < ncols m -> nth (i + j * nrows m) (iter m) d = entry m i j.
Proof. intros Hi Hj. unfold iter. rewrite nth_flat_map_seq by assumption. reflexivity. Qed.

Lemma powf_R_nonneg (x y : R) : (0 <= powf_R x y)%R.
Proof.
  unfold powf_R. destruct (Rlt_dec 0 x).
  - left. unfold Rpower. apply exp_pos.
  - destruct (Req_EM_T y 0); [apply Rle_0_1 | apply Rle_refl].
Qed.

(** The probability matrix of [run_ants] over any scalar type and any
    [powf]: for [P] and [H] of identical dimensions it has the dimensions of
    [P] and its entry [(i, j)] is [P[i,j]^alpha * H[i,j]^beta]. *)
Lemma prob_matrix_entries {K} `{Scalar K} (powf : K -> K -> K) (P Hm : Matrix K) (alpha beta : K) :
  nrows P = nrows Hm -> ncols P = ncols Hm ->
  exists W, prob_matrix powf alpha beta P Hm = Some W /\
    nrows W = nrows P /\ ncols W = ncols P /\
    forall i j, i < nrows P -> j < ncols P ->
      entry W i j = mul (powf (entry P i j) alpha) (powf (entry Hm i j) beta).
Proof.
  intros Hr Hc. unfold prob_matrix, from_iterator.
  assert (Hlen : List.length (map (fun ph => calc_prob powf alpha beta (fst ph) (snd ph))
                   (combine (iter P) (iter Hm))) = nrows P * ncols P).
  { rewrite length_map, length_combine, !length_iter, <- Hr, <- Hc. lia. }
  rewrite Hlen, Nat.ltb_irrefl.
  eexists; split; [reflexivity|]. cbn [nrows ncols entry].
  split; [reflexivity|]. split; [reflexivity|].
  intros i j Hi Hj.
  assert (Hk : i + j * nrows P < List.length (combine (iter P) (iter Hm))).
  { rewrite length_combine, !length_iter, <- Hr, <- Hc. nia. }
  rewrite nth_indep with (d' := calc_prob powf alpha beta (fst (zero, zero)) (snd (zero, zero)))
    by (rewrite length_map; exact Hk).
  rewrite (map_nth (fun ph => calc_prob powf alpha beta (fst ph) (snd ph))).
  rewrite combine_nth by (rewrite !length_iter, <- Hr, <- Hc; reflexivity).
  cbn [fst snd]. unfold calc_prob.
  rewrite nth_iter by assumption.
  rewrite Hr, nth_iter by (rewrite <- ?Hr, <- ?Hc; assumption).
  reflexivity.
Qed.

(** C2 (amended). For every pheromone [P] and heuristic [H] of identical
    dimensions and every [alpha], [beta] (over any scalar type and [powf]),
    the probability matrix of [run_ants] has the dimensions of [P] and its
    entry [(i, j)] is [P[i,j]^alpha * H[i,j]^beta]. With exact real powers
    ([powf_R]), [alpha, beta >= 0] and non-negative [P] and [H], every
    entry is non-negative. *)
Theorem prob_matrix_spec :
  (forall (K : Type) (SK : Scalar K) (powf : K -> K -> K) (P H : Matrix K) (alpha beta : K),
     nrows P = nrows H -> ncols P = ncols H ->
     exists W, prob_matrix powf alpha beta P H = Some W /\
       nrows W = nrows P /\ ncols W = ncols P /\
       forall i j, i < nrows P -> j < ncols P ->
         entry W i j = mul (powf (entry P i j) alpha) (powf (entry H i j) beta)) /\
  (forall (P H W : Matrix R) (alpha beta : R),
     nrows P = nrows H -> ncols P = ncols H ->
     (0 <= alpha)%R -> (0 <= beta)%R ->
     (forall i j, i < nrows P -> j < ncols P -> (0 <= entry P i j)%R /\ (0 <= entry H i j)%R) ->
     prob_matrix powf_R alpha beta P H = Some W ->
     forall i j, i < nrows W -> j < ncols W -> (0 <= entry W i j)%R).
Proof.
  split.
  - intros K SK powf P H alpha beta. apply prob_matrix_entries.
  - intros P H W alpha beta Hr Hc _ _ _ HW i j Hi Hj.
    destruct (prob_matrix_entries powf_R P H alpha beta Hr Hc) as [W' [HW' [Hr' [Hc' He]]]].
    rewrite HW in HW'. injection HW' as <-.
    rewrite He by lia. cbn [mul Scalar_R].
    apply Rmult_le_pos; apply powf_R_nonneg.
Qed.

(** Witness for [prob_matrix_spec]: all-ones 2x2 pheromone and heuristic,
    [alpha = beta = 1]. *)
Lemma prob_matrix_spec_witness :
  exists W, prob_matrix powf_R 1%R 1%R (ones_R 2) (ones_R 2) = Some W /\
    nrows W = 2 /\ ncols W = 2 /\
    entry W 0 0 = (powf_R 1 1 * powf_R 1 1)%R /\ (0 <= entry W 0 0)%R.
Proof.
  destruct (proj1 prob_matrix_spec R Scalar_R powf_R (ones_R 2) (ones_R 2) 1%R 1%R
              eq_refl eq_refl) as [W [HW [Hr [Hc He]]]].
  exists W. split; [exact HW|]. split; [exact Hr|]. split; [exact Hc|].
  split; [apply He; cbn; lia|].
  apply (proj2 prob_matrix_spec (ones_R 2) (ones_R 2) W 1%R 1%R eq_refl eq_refl
           Rle_0_1 Rle_0_1); [| exact HW | rewrite Hr; cbn; lia | rewrite Hc; cbn; lia].
  intros i j _ _. cbn. split; apply Rle_0_1.
Defined.

(** C2 counterexample. In f64 the entries need not be non-negative: with
    the pheromone [0.0], [alpha = 1], the heuristic [2^600] and
    [beta = 2], all inputs non-negative, [0.0^1 = 0.0] and
    [(2^600)^2] overflows to +inf, and the entry is [0.0 * inf = NaN],
    which is not [>= 0]. *)
Lemma prob_matrix_f64_nan :
  (0 <=? entry pher0_f 0 0)%float = true /\ (0 <=? entry heur_big_f 0 0)%float = true /\
  match prob_matrix powf64 1%float 2%float pher0_f heur_big_f with
  | Some W =>
      nrows W = 1 /\ ncols W = 1 /\
      PrimFloat.is_nan (entry W 0 0) = true /\ (0 <=? entry W 0 0)%float = false
  | None => False
  end.
Proof. vm_compute. repeat split. Qed.

(* ------------------------------------------------------------------ *)
(** ** Paths and cycles *)

Lemma edge_sym (u v a b : nat) : edge u v a b = edge v u a b.
Proof. unfold edge. apply orb_comm. Qed.

Lemma edge_swap (u v a b : nat) : edge u v a b = edge u v b a.
Proof.
  unfold edge. destruct (a =? u), (b =? v), (a =? v), (b =? u); reflexivity.
Qed.

Lemma path_adj_sym (p : list nat) (a b : nat) : path_adj p a b = path_adj p b a.
Proof.
  induction p as [|x [|y t] IH]; simpl; try reflexivity.
  simpl in IH. rewrite IH, edge_swap. reflexivity.
Qed.

Lemma cyc_adj_sym (p : list nat) (a b : nat) : cyc_adj p a b = cyc_adj p b a.
Proof. unfold cyc_adj. rewrite path_adj_sym, edge_swap. reflexivity. Qed.

Lemma path_adj_in (p : list nat) (a b : nat) : path_adj p a b = true -> In a p.
Proof.
  induction p as [|x [|y t] IH]; simpl; try discriminate.
  intro H. apply orb_true_iff in H as [H|H].
  - unfold edge in H.
    apply orb_true_iff in H as [H|H]; apply andb_true_iff in H as [H1 _];
      apply Nat.eqb_eq in H1; subst; auto.
  - right. apply IH. exact H.
Qed.

Lemma path_adj_snoc (p : list nat) (x a b : nat) :
  p <> [] -> path_adj (p ++ [x]) a b = path_adj p a b || edge (last p 0) x a b.
Proof.
  induction p as [|y t IH]; intro Hp; [congruence|].
  destruct t as [|z t].
  - simpl. rewrite orb_false_r. reflexivity.
  - transitivity (edge y z a b || path_adj ((z :: t) ++ [x]) a b); [reflexivity|].
    rewrite IH by discriminate.
    change (last (y :: z :: t) 0) with (last (z :: t) 0).
    change (path_adj (y :: z :: t) a b) with (edge y z a b || path_adj (z :: t) a b).
    apply orb_assoc.
Qed.

Lemma last_in (l : list nat) (d : nat) : l <> [] -> In (last l d) l.
Proof.
  induction l as [|x l IH]; intro H; [congruence|].
  destruct l as [|y l]; [left; reflexivity|].
  right. apply IH. discriminate.
Qed.

Lemma cyc_adj_rotate (x : nat) (t : list nat) (a b : nat) :
  t <> [] -> cyc_adj (x :: t) a b = cyc_adj (t ++ [x]) a b.
Proof.
  intro Ht. unfold cyc_adj. rewrite path_adj_snoc by exact Ht.
  destruct t as [|y t']; [congruence|].
  change (path_adj (x :: y :: t') a b) with (edge x y a b || path_adj (y :: t') a b).
  rewrite last_last.
  change (last (x :: y :: t') 0) with (last (y :: t') 0).
  change (hd 0 (x :: y :: t')) with x.
  change (hd 0 ((y :: t') ++ [x])) with y.
  destruct (edge x y a b), (path_adj (y :: t') a b), (edge (last (y :: t') 0) x a b);
    reflexivity.
Qed.

Lemma cyc_adj_app_swap (l1 l2 : list nat) (a b : nat) :
  l2 <> [] -> cyc_adj (l1 ++ l2) a b = cyc_adj (l2 ++ l1) a b.
Proof.
  revert l2. induction l1 as [|c l1 IH]; intros l2 Hl2.
  - rewrite app_nil_r. reflexivity.
  - change ((c :: l1) ++ l2) with (c :: (l1 ++ l2)).
    rewrite cyc_adj_rotate by (destruct l1; [exact Hl2 | discriminate]).
    rewrite <- app_assoc, IH by (destruct l2; [congruence | discriminate]).
    rewrite <- app_assoc. reflexivity.
Qed.

Lemma cyc_adj_head (i x : nat) (t : list nat) (j : nat) :
  NoDup (i :: x :: t) -> t <> [] ->
  cyc_adj (i :: x :: t) i j = (j =? x) || (j =? last t 0).
Proof.
  intros Hnd Ht. unfold cyc_adj.
  change (path_adj (i :: x :: t) i j) with (edge i x i j || path_adj (x :: t) i j).
  assert (Hp : path_adj (x :: t) i j = false).
  { destruct (path_adj (x :: t) i j) eqn:E; [|reflexivity].
    apply path_adj_in in E. inversion Hnd; contradiction. }
  rewrite Hp.
  replace (last (i :: x :: t) 0) with (last t 0)
    by (destruct t; [congruence | reflexivity]).
  change (hd 0 (i :: x :: t)) with i.
  inversion Hnd as [|? ? Hi Hnd']; subst.
  assert (Hix : (i =? x) = false) by (apply Nat.eqb_neq; intro; subst; simpl in Hi; auto).
  assert (Hiy : (i =? last t 0) = false).
  { apply Nat.eqb_neq. intro E. apply Hi. right. rewrite E. apply last_in. exact Ht. }
  unfold edge. rewrite Nat.eqb_refl, Hix, Hiy.
  destruct (j =? x), (j =? last t 0); reflexivity.
Qed.

Lemma filter_two (l : list nat) (x y : nat) :
  NoDup l -> In x l -> In y l -> x <> y ->
  List.length (filter (fun j => (j =? x) || (j =? y)) l) = 2.
Proof.
  intros Hnd Hx Hy Hxy.
  apply (Permutation_length (l' := [x; y])).
  apply NoDup_Permutation.
  - apply NoDup_filter. exact Hnd.
  - constructor; [simpl; intuition | constructor; [simpl; auto | constructor]].
  - intro z. rewrite filter_In, orb_true_iff, !Nat.eqb_eq. simpl.
    split; [intros [_ [H|H]]; auto | intros [H|[H|[]]]; subst; auto].
Qed.

(** In a cycle through all of [0..n) with [n >= 3], every node has
    exactly two neighbours. *)
Lemma cycle_degree (q : list nat) (n i : nat) :
  Permutation q (seq 0 n) -> 3 <= n -> i < n ->
  List.length (filter (cyc_adj q i) (seq 0 n)) = 2.
Proof.
  intros Hq Hn Hi.
  assert (Hin : In i q).
  { apply (Permutation_in _ (Permutation_sym Hq)). apply in_seq. lia. }
  apply in_split in Hin as [l1 [l2 ->]].
  assert (Hrot : forall j, cyc_adj (l1 ++ i :: l2) i j = cyc_adj (i :: l2 ++ l1) i j).
  { intro j. rewrite cyc_adj_app_swap by discriminate. reflexivity. }
  assert (Hq' : Permutation (i :: l2 ++ l1) (seq 0 n)).
  { eapply perm_trans; [|exact Hq].
    change (i :: l2 ++ l1) with ((i :: l2) ++ l1). apply Permutation_app_comm. }
  assert (Hnd : NoDup (i :: l2 ++ l1)).
  { apply (Permutation_NoDup (Permutation_sym Hq')). apply seq_NoDup. }
  assert (Hlen := Permutation_length Hq'). rewrite length_seq in Hlen.
  destruct (l2 ++ l1) as [|x [|z t]] eqn:E; simpl in Hlen; try lia.
  rewrite (filter_ext _ _ Hrot).
  rewrite (filter_ext _ (fun j => (j =? x) || (j =? last (z :: t) 0)))
    by (intro j; apply cyc_adj_head; [exact Hnd | discriminate]).
  apply filter_two.
  - apply seq_NoDup.
  - apply (Permutation_in _ Hq'). simpl; auto.
  - apply (Permutation_in _ Hq'). right; right. apply last_in. discriminate.
  - intro Exy. inversion Hnd as [|? ? _ Hnd']. inversion Hnd' as [|? ? Hx _].
    apply Hx. rewrite Exy. apply last_in. discriminate.
Qed.

Lemma sum_indicator (f : nat -> bool) (l : list nat) :
  (fold_left Qplus (map (fun j => if f j then 1 else 0) l) 0 ==
   inject_Z (Z.of_nat (List.length (filter f l))))%Q.
Proof.
  rewrite fold_left_Qplus_acc.
  induction l as [|x l IH].
  - reflexivity.
  - cbn [map fold_right filter]. destruct (f x); cbn [List.length].
    + rewrite Nat2Z.inj_succ, <- Z.add_1_l, inject_Z_plus. rewrite <- IH. ring.
    + rewrite <- IH. ring.
Qed.

(* ------------------------------------------------------------------ *)
(** ** The construction loop of [run_ant] *)

Lemma row_sum_acc (row : nat -> Q) (l : list nat) (a : Q) :
  (fold_left (fun s v => s + row v) l a == a + fold_right (fun v acc => row v + acc) 0 l)%Q.
Proof.
  revert a; induction l as [|x l IH]; intro a; simpl.
  - ring.
  - rewrite IH. ring.
Qed.

(** The roulette scan picks an unvisited node when [0 <= r < sum]. *)
Lemma select_in (row : nat -> Q) (l : list nat) (r : Q) (d : nat) :
  (0 <= r)%Q -> (r < fold_right (fun v acc => row v + acc) 0 l)%Q ->
  In (select row r l d) l.
Proof.
  revert r; induction l as [|v l IH]; intros r H0 Hlt; simpl in *.
  - lra.
  - destruct (Qle_bool (r - row v) 0) eqn:E; [left; reflexivity|].
    right. apply IH.
    + assert (~ (r - row v <= 0)%Q) by (intro Hle; apply Qle_bool_iff in Hle; congruence). lra.
    + lra.
Qed.

Lemma perm_remove_node (l : list nat) (x : nat) :
  NoDup l -> In x l -> Permutation l (x :: remove_node x l).
Proof.
  intros Hnd Hx. apply NoDup_Permutation.
  - exact Hnd.
  - constructor.
    + unfold remove_node. rewrite filter_In, Nat.eqb_refl. simpl. intros [_ H]. discriminate.
    + apply NoDup_filter. exact Hnd.
  - intro y. simpl. unfold remove_node. rewrite filter_In.
    destruct (Nat.eq_dec x y) as [->|Hne].
    + intuition.
    + rewrite negb_true_iff, Nat.eqb_neq. intuition.
Qed.

Lemma entry_set_edge (sol : FMatrix) (u v a b : nat) :
  entry (set (set sol u v 1) v u 1) a b = if edge u v a b then 1%Q else entry sol a b.
Proof.
  unfold set, edge. simpl.
  destruct (a =? v) eqn:E1, (b =? u) eqn:E2, (a =? u) eqn:E3, (b =? v) eqn:E4;
    reflexivity.
Qed.

(** The loop invariant: [p] is the path walked so far, from [first] to
    [last]; [p] and the unvisited nodes together are [0..n); the solution
    holds exactly the edges of [p]. A run that ends without the abort
    returns the closed cycle of a permutation of [0..n). *)
Lemma ant_loop_tour (fuel : nat) (env : Env) (prob : FMatrix) (n first cur : nat)
    (unvisited : list nat) (sol : FMatrix) (pos : nat) (p : list nat)
    (sol' : FMatrix) (pos' : nat) :
  env_ok env ->
  p <> [] -> hd 0 p = first -> last p 0 = cur ->
  Permutation (p ++ unvisited) (seq 0 n) ->
  nrows sol = n -> ncols sol = n ->
  (forall a b, entry sol a b = if path_adj p a b then 1%Q else 0%Q) ->
  ant_loop fuel env prob n first cur unvisited sol pos = Some (sol', [], pos') ->
  nrows sol' = n /\ ncols sol' = n /\
  exists q, Permutation q (seq 0 n) /\
    forall a b, entry sol' a b = if cyc_adj q a b then 1%Q else 0%Q.
Proof.
  intros Henv. revert cur unvisited sol pos p.
  induction fuel as [|fuel IH]; intros cur unvisited sol pos p Hp Hhd Hlast Hperm Hr Hc Hsol Hrun;
    destruct unvisited as [|x xs].
  1, 3:
    simpl in Hrun; injection Hrun as <- _;
    split; [assumption|]; split; [assumption|];
    exists p; split; [rewrite app_nil_r in Hperm; exact Hperm|];
    intros a b; rewrite entry_set_edge, Hsol; unfold cyc_adj; rewrite Hlast, Hhd;
    destruct (edge cur first a b), (path_adj p a b); reflexivity.
  all: cbn [ant_loop] in Hrun;
    destruct (negb (Qltb 0 (row_sum (entry prob cur) (x :: xs)))) eqn:Hsum;
    [injection Hrun as _ Hd _; discriminate|].
  - discriminate.
  - set (sum := row_sum (entry prob cur) (x :: xs)) in *.
    set (r := gen_real env pos sum) in *.
    set (next := select (entry prob cur) r (x :: xs) cur) in *.
    assert (Hpos : (0 < sum)%Q).
    { assert (~ (sum <= 0)%Q) by (intro Hle; apply Qle_bool_iff in Hle; unfold Qltb in Hsum; rewrite Hle in Hsum; discriminate). lra. }
    destruct Henv as [_ [Hreal _]].
    destruct (Hreal pos sum Hpos) as [Hr0 Hr1]. fold r in Hr0, Hr1.
    assert (Hnext : In next (x :: xs)).
    { apply select_in; [exact Hr0|].
      unfold sum, row_sum in Hr1. rewrite row_sum_acc in Hr1. lra. }
    assert (Hnd : NoDup (p ++ x :: xs)).
    { apply (Permutation_NoDup (Permutation_sym Hperm)). apply seq_NoDup. }
    eapply (IH next _ _ _ (p ++ [next])); [| | | | | | | exact Hrun].
    + destruct p; [congruence | discriminate].
    + destruct p; [congruence | exact Hhd].
    + apply last_last.
    + eapply perm_trans; [|exact Hperm]. rewrite <- app_assoc. simpl.
      apply Permutation_app_head. apply Permutation_sym, perm_remove_node.
      * apply NoDup_app_remove_l in Hnd. exact Hnd.
      * exact Hnext.
    + simpl. exact Hr.
    + simpl. exact Hc.
    + intros a b. rewrite entry_set_edge, Hsol, path_adj_snoc by exact Hp.
      rewrite Hlast. destruct (edge cur next a b), (path_adj p a b); reflexivity.
Qed.

Lemma row_sum_cycle (sol : FMatrix) (q : list nat) (n i : nat) :
  Permutation q (seq 0 n) -> 3 <= n -> i < n -> ncols sol = n ->
  (forall a b, entry sol a b = if cyc_adj q a b then 1%Q else 0%Q) ->
  (mrow_sum sol i == 2)%Q.
Proof.
  intros Hq Hn Hi Hc Hsol. unfold mrow_sum. rewrite Hc.
  rewrite (map_ext _ (fun j => if cyc_adj q i j then 1%Q else 0%Q)) by (intro; apply Hsol).
  rewrite sum_indicator, (cycle_degree q n i Hq Hn Hi). reflexivity.
Qed.

(** C7 (amended). In exact arithmetic, a construction over an n x n probability matrix with
    [n >= 3] that ends without the abort returns a matrix of the edges of
    one cycle through all of [0..n): it is symmetric, has 0/1 entries, and
    every row and every column sums to 2. *)
Theorem run_ant_tour (env : Env) (prob : FMatrix) (pos : nat) (sol : FMatrix) (pos' : nat)
    (Henv : env_ok env) (Hsq : ncols prob = nrows prob) (H3 : 3 <= nrows prob)
    (Hrun : run_ant env prob pos = Some (sol, [], pos')) :
  nrows sol = nrows prob /\ ncols sol = nrows prob /\
  (exists q, Permutation q (seq 0 (nrows prob)) /\
     forall a b, entry sol a b = if cyc_adj q a b then 1%Q else 0%Q) /\
  (forall a b, entry sol a b = entry sol b a) /\
  (forall a b, entry sol a b = 0%Q \/ entry sol a b = 1%Q) /\
  (forall i, i < nrows prob -> (mrow_sum sol i == 2)%Q) /\
  (forall j, j < nrows prob -> (mcol_sum sol j == 2)%Q).
Proof.
  unfold run_ant in Hrun. set (n := nrows prob) in *.
  destruct (n =? 0) eqn:Hn0; [discriminate|].
  set (order := hash_order env pos n) in *.
  set (first := gen_index env pos n) in *.
  assert (Hfirst : first < n) by (apply (proj1 Henv); lia).
  assert (Horder : Permutation order (seq 0 n)) by apply (proj2 (proj2 Henv)).
  assert (Hnd : NoDup order)
    by (apply (Permutation_NoDup (Permutation_sym Horder)); apply seq_NoDup).
  assert (Hin : In first order)
    by (apply (Permutation_in _ (Permutation_sym Horder)); apply in_seq; lia).
  destruct (ant_loop_tour n env prob n first first (remove_node first order)
              (zeros n n) (S pos) [first] sol pos')
    as [Hr [Hc [q [Hq Hsol]]]];
    [exact Henv | discriminate | reflexivity | reflexivity
    | simpl; apply Permutation_sym; eapply perm_trans;
      [apply Permutation_sym, Horder | apply perm_remove_node; assumption]
    | reflexivity | reflexivity | intros; reflexivity | exact Hrun |].
  assert (Hsym : forall a b, entry sol a b = entry sol b a)
    by (intros a b; rewrite !Hsol, cyc_adj_sym; reflexivity).
  split; [exact Hr|]. split; [exact Hc|].
  split; [exists q; split; assumption|].
  split; [exact Hsym|].
  split; [intros a b; rewrite Hsol; destruct (cyc_adj q a b); auto|].
  split.
  - intros i Hi. apply (row_sum_cycle sol q n i); assumption.
  - intros j Hj. unfold mcol_sum.
    rewrite (map_ext _ (fun i => entry sol j i)) by (intro; apply Hsym).
    rewrite Hr, <- Hc. apply (row_sum_cycle sol q n j); assumption.
Qed.

Lemma env0_ok : env_ok env0.
Proof.
  split; [intros; simpl; lia|]. split.
  - intros pos h H. simpl. split; [apply Qle_refl | exact H].
  - intros. apply Permutation_refl.
Qed.

(** Witness for [run_ant_tour]: three nodes, all weights 1. *)
Lemma run_ant_tour_witness :
  exists sol pos', run_ant env0 (ones 3) 0 = Some (sol, [], pos') /\
    (forall a b, entry sol a b = entry sol b a) /\
    (forall i, i < 3 -> (mrow_sum sol i == 2)%Q).
Proof.
  destruct (run_ant env0 (ones 3) 0) as [[[sol ds] p]|] eqn:E.
  - assert (Hds : ds = []) by (vm_compute in E; injection E as _ H _; symmetry; exact H).
    subst ds. exists sol, p. split; [reflexivity|].
    destruct (run_ant_tour env0 (ones 3) 0 sol p env0_ok eq_refl (le_n 3) E)
      as [_ [_ [_ [Hs [_ [Hrow _]]]]]].
    split; [exact Hs | exact Hrow].
  - vm_compute in E. discriminate.
Defined.

(** C7 counterexample. Over two nodes the construction ends without the
    abort, and row 0 of the result sums to 1, not 2: the tour [0 -> 1 -> 0]
    uses the one edge [{0, 1}] twice. In f64 the roulette scan can miss:
    over [prob5_f] from node 0 the rounded sum of the weights is
    [1 + 3 * 2^-52], the draw [1 + 2 * 2^-52] (below it) stays positive
    after every subtraction, so no node is picked, [next] stays [0], and
    the diagonal entry [(0, 0)] is set; row 0 of the result holds three
    ones. *)
Lemma run_ant_not_a_tour :
  match run_ant env0 (ones 2) 0 with
  | Some (sol, ds, _) => ds = [] /\ mrow_sum sol 0 = 1%Q /\ Qeq_bool (mrow_sum sol 0) 2 = false
  | None => False
  end /\
  row_sum64 (entry prob5_f 0) [1; 2; 3; 4] = (1 + 0x3p-52)%float /\
  gen_real64 env64_miss 1 (1 + 0x3p-52)%float = (1 + 0x2p-52)%float /\
  (0 <=? 1 + 0x2p-52)%float = true /\ (1 + 0x2p-52 <? 1 + 0x3p-52)%float = true /\
  select64 (entry prob5_f 0) (1 + 0x2p-52)%float [1; 2; 3; 4] 0 = 0 /\
  match run_ant64 5 env64_miss prob5_f 0 with
  | Some (sol, ds, _) =>
      ds = [] /\ map (entry sol 0) (seq 0 5) = [1; 1; 0; 0; 1]%float
  | None => False
  end.
Proof.
  split; [vm_compute; split; [reflexivity | split; reflexivity]|].
  vm_compute. repeat split.
Qed.

(* ------------------------------------------------------------------ *)
(** ** C5: the zero-denominator abort *)

Lemma qsum_zero (n : nat) (f : nat -> Q) :
  (forall k, k < n -> (f k == 0)%Q) -> (qsum n f == 0)%Q.
Proof.
  induction n as [|n IH]; intro H; simpl; [reflexivity|].
  rewrite IH, H by (intros; try apply H; lia). reflexivity.
Qed.

Lemma grade_one_Q (M W : FMatrix) :
  nrows M = nrows W -> ncols M = ncols W ->
  exists q, grade_one W M = Some q /\
    (q == entry_sum (nrows M) (ncols M) (fun i j => entry M i j * entry W i j) / 2)%Q.
Proof.
  intros Hr Hc. unfold grade_one, component_mul, same_shape.
  rewrite Hr, Hc, !Nat.eqb_refl. simpl.
  eexists; split; [reflexivity|].
  cbn [div two Scalar_Q]. rewrite msum_Q. simpl. rewrite <- Hr, <- Hc. reflexivity.
Qed.

Lemma grade_one_zeros (weights : FMatrix) (n : nat) :
  nrows weights = n -> ncols weights = n ->
  exists q, grade_one weights (zeros n n) = Some q /\ (q == 0)%Q.
Proof.
  intros Hr Hc.
  destruct (grade_one_Q (zeros n n) weights) as [q [Hq Hv]]; [auto|auto|].
  exists q. split; [exact Hq|]. rewrite Hv. unfold entry_sum.
  rewrite (qsum_zero _ (fun i => qsum _ _)); [reflexivity|].
  intros i _. apply qsum_zero. intros j _. simpl. ring.
Qed.

(** C5. (a) When the weights from the current node to the unvisited nodes
    sum to zero, the construction returns the all-zero n x n matrix and
    prints "Could not find a solution", with no panic; (b) [run_ants] then
    goes on with the remaining ants; (c) the zero matrix is graded without
    error (its cost is 0). *)
Theorem ant_loop_zero_sum_abort (fuel : nat) (env : Env) (prob : FMatrix)
    (n first cur : nat) (unvisited : list nat) (sol : FMatrix) (pos : nat)
    (Hne : unvisited <> []) (Hzero : (row_sum (entry prob cur) unvisited == 0)%Q) :
  ant_loop fuel env prob n first cur unvisited sol pos
    = Some (zeros n n, [Println no_solution_msg], pos) /\
  (forall k w pos',
     run_ant env prob (rng_pos w) = Some (zeros n n, [Println no_solution_msg], pos') ->
     run_ants_loop env prob (S k) w =
       match run_ants_loop env prob k (mkWorld (trace w ++ [Println no_solution_msg]) pos') with
       | Some (ms, w') => Some (zeros n n :: ms, w')
       | None => None
       end) /\
  (forall weights, nrows weights = n -> ncols weights = n ->
     exists q, grade_one weights (zeros n n) = Some q /\ (q == 0)%Q).
Proof.
  split; [|split].
  - destruct unvisited as [|x xs]; [congruence|].
    assert (Hle : Qle_bool (row_sum (entry prob cur) (x :: xs)) 0 = true)
      by (apply Qle_bool_iff; rewrite Hzero; apply Qle_refl).
    destruct fuel; cbn [ant_loop]; unfold Qltb; rewrite Hle; reflexivity.
  - intros k w pos' Hrun. cbn [run_ants_loop]. rewrite Hrun. reflexivity.
  - intros weights Hr Hc. apply grade_one_zeros; assumption.
Qed.

(** Witness for [ant_loop_zero_sum_abort]: all weights 0, at node 0 with
    nodes 1 and 2 unvisited. *)
Lemma ant_loop_zero_sum_abort_witness :
  ant_loop 2 env0 (zeros 3 3) 3 0 0 [1; 2] (zeros 3 3) 1
    = Some (zeros 3 3, [Println no_solution_msg], 1).
Proof.
  refine (proj1 (ant_loop_zero_sum_abort 2 env0 (zeros 3 3) 3 0 0 [1; 2] (zeros 3 3) 1 _ _));
    [discriminate | reflexivity].
Defined.

(* ------------------------------------------------------------------ *)
(** ** [find_best] *)

Lemma min_by_step_none {A : Type} (cmp : A -> A -> option comparison) (xs : list A) :
  fold_left (min_by_step cmp) xs None = None.
Proof. induction xs; simpl; auto. Qed.

Lemma nth_error_snoc_inv {A : Type} (pre : list A) (y t : A) (j : nat) :
  nth_error (pre ++ [y]) j = Some t ->
  nth_error pre j = Some t \/ (j = List.length pre /\ t = y).
Proof.
  intros H. destruct (Nat.lt_ge_cases j (List.length pre)) as [Hl|Hl].
  - left. rewrite nth_error_app1 in H by exact Hl. exact H.
  - right. rewrite nth_error_app2 in H by exact Hl.
    destruct (j - List.length pre) as [|d] eqn:E; simpl in H.
    + inversion H. split; [lia | reflexivity].
    + destruct d; discriminate.
Qed.

Lemma nth_error_snoc_last {A : Type} (pre : list A) (y : A) :
  nth_error (pre ++ [y]) (List.length pre) = Some y.
Proof.
  rewrite nth_error_app2 by lia. rewrite Nat.sub_diag. reflexivity.
Qed.

Lemma fold_min_by_first_min (xs pre : list Solution) (a : Solution) (ka : nat) :
  nth_error pre ka = Some a ->
  (forall j t, nth_error pre j = Some t -> (cost a <= cost t)%Q) ->
  (forall j t, (j < ka)%nat -> nth_error pre j = Some t -> (cost a < cost t)%Q) ->
  exists k s,
    fold_left (min_by_step sol_partial_cmp) xs (Some a) = Some s /\
    nth_error (pre ++ xs) k = Some s /\
    (forall j t, nth_error (pre ++ xs) j = Some t -> (cost s <= cost t)%Q) /\
    (forall j t, (j < k)%nat -> nth_error (pre ++ xs) j = Some t -> (cost s < cost t)%Q).
Proof.
  revert pre a ka. induction xs as [|y ys IH]; intros pre a ka Hka Hle Hlt.
  - exists ka, a. rewrite app_nil_r. repeat split; assumption.
  - assert (Hka_len : (ka < List.length pre)%nat)
      by (apply nth_error_Some; rewrite Hka; discriminate).
    replace (pre ++ y :: ys) with ((pre ++ [y]) ++ ys) by (rewrite <- app_assoc; reflexivity).
    cbn [fold_left]. unfold min_by_step at 2, sol_partial_cmp.
    destruct (Qcompare_spec (cost a) (cost y)) as [E|E|E].
    + apply (IH (pre ++ [y]) a ka).
      * rewrite nth_error_app1 by exact Hka_len. exact Hka.
      * intros j t Hj. apply nth_error_snoc_inv in Hj as [Hj|[_ ->]];
          [eapply Hle; eauto | rewrite E; apply Qle_refl].
      * intros j t Hj Ht. apply nth_error_snoc_inv in Ht as [Ht|[-> _]];
          [eapply Hlt; eauto | lia].
    + apply (IH (pre ++ [y]) a ka).
      * rewrite nth_error_app1 by exact Hka_len. exact Hka.
      * intros j t Hj. apply nth_error_snoc_inv in Hj as [Hj|[_ ->]];
          [eapply Hle; eauto | apply Qlt_le_weak; exact E].
      * intros j t Hj Ht. apply nth_error_snoc_inv in Ht as [Ht|[-> _]];
          [eapply Hlt; eauto | lia].
    + apply (IH (pre ++ [y]) y (List.length pre)).
      * apply nth_error_snoc_last.
      * intros j t Hj. apply nth_error_snoc_inv in Hj as [Hj|[_ ->]].
        -- apply Qlt_le_weak. apply Qlt_le_trans with (cost a); [exact E | eapply Hle; eauto].
        -- apply Qle_refl.
      * intros j t Hj Ht. apply nth_error_snoc_inv in Ht as [Ht|[Hj' _]]; [|lia].
        apply Qlt_le_trans with (cost a); [exact E | eapply Hle; eauto].
Qed.

(** C4. On a non-empty list of graded solutions, [find_best] returns the
    solution at some position [k] whose cost is the minimum of all costs,
    and every solution before position [k] costs strictly more: of the
    solutions of minimum cost, the first in iteration order is chosen. *)
Theorem find_best_first_min (sols : list Solution) (Hne : sols <> []) :
  exists k s,
    find_best sol_partial_cmp sols = Some s /\
    nth_error sols k = Some s /\
    (forall j t, nth_error sols j = Some t -> (cost s <= cost t)%Q) /\
    (forall j t, (j < k)%nat -> nth_error sols j = Some t -> (cost s < cost t)%Q).
Proof.
  destruct sols as [|x xs]; [congruence|].
  apply (fold_min_by_first_min xs [x] x 0).
  - reflexivity.
  - intros j t Hj. destruct j as [|[|j]]; simpl in Hj; try discriminate.
    inversion Hj. apply Qle_refl.
  - intros j t Hj. lia.
Qed.

(** Witness for [find_best_first_min]: costs 2, 1, 1; the solution at
    position 1 is chosen. *)
Lemma find_best_first_min_witness :
  let sols := [mkSolution (zeros 3 3) 2%Q; mkSolution (ones 3) 1%Q; mkSolution (zeros 3 3) 1%Q] in
  sols <> [] /\
  exists k s,
    find_best sol_partial_cmp sols = Some s /\
    nth_error sols k = Some s /\
    (forall j t, nth_error sols j = Some t -> (cost s <= cost t)%Q) /\
    (forall j t, (j < k)%nat -> nth_error sols j = Some t -> (cost s < cost t)%Q).
Proof.
  intros sols. split; [discriminate|].
  apply (find_best_first_min sols). discriminate.
Defined.

(** [f64::partial_cmp] is [None] exactly when one side is NaN. *)
Lemma is_nan_Prim2SF (x : float) : PrimFloat.is_nan x = true <-> Prim2SF x = S754_nan.
Proof.
  unfold PrimFloat.is_nan. rewrite eqb_spec. unfold SFeqb.
  destruct (Prim2SF x) as [s|s| |s m e]; simpl; split; intro H; try discriminate; try reflexivity.
  - destruct s; discriminate.
  - destruct s; simpl in H; rewrite ?Z.compare_refl, ?Pos.compare_cont_refl in H;
      simpl in H; discriminate.
Qed.

Lemma SFcompare_none (a b : spec_float) :
  SFcompare a b = None <-> a = S754_nan \/ b = S754_nan.
Proof.
  destruct a, b; simpl; split; intro H; try discriminate; auto;
    destruct H; discriminate.
Qed.

Lemma float_partial_cmp_none (x y : float) :
  float_partial_cmp x y = None <-> PrimFloat.is_nan x = true \/ PrimFloat.is_nan y = true.
Proof.
  rewrite !is_nan_Prim2SF, <- SFcompare_none. unfold float_partial_cmp.
  rewrite compare_spec.
  destruct (SFcompare (Prim2SF x) (Prim2SF y)) as [[]|]; simpl; split; intro H;
    try discriminate; reflexivity.
Qed.

Lemma fold_min_by_none (xs : list Solution64) (a : Solution64) :
  fold_left (min_by_step sol64_partial_cmp) xs (Some a) = None <->
  (PrimFloat.is_nan (cost64 a) = true /\ xs <> []) \/
  Exists (fun s => PrimFloat.is_nan (cost64 s) = true) xs.
Proof.
  revert a. induction xs as [|y ys IH]; intros a; cbn [fold_left].
  - split; [discriminate|]. intros [[_ H]|H]; [congruence | inversion H].
  - unfold min_by_step at 2, sol64_partial_cmp.
    destruct (float_partial_cmp (cost64 a) (cost64 y)) as [c|] eqn:E.
    + assert (Ha : PrimFloat.is_nan (cost64 a) = false).
      { destruct (PrimFloat.is_nan (cost64 a)) eqn:Ea; [|reflexivity].
        assert (float_partial_cmp (cost64 a) (cost64 y) = None)
          by (apply float_partial_cmp_none; auto). congruence. }
      assert (Hy : PrimFloat.is_nan (cost64 y) = false).
      { destruct (PrimFloat.is_nan (cost64 y)) eqn:Ey; [|reflexivity].
        assert (float_partial_cmp (cost64 a) (cost64 y) = None)
          by (apply float_partial_cmp_none; auto). congruence. }
      assert (Hstep : forall b, PrimFloat.is_nan (cost64 b) = false ->
        (fold_left (min_by_step sol64_partial_cmp) ys (Some b) = None <->
         (PrimFloat.is_nan (cost64 a) = true /\ y :: ys <> []) \/
         Exists (fun s => PrimFloat.is_nan (cost64 s) = true) (y :: ys))).
      { intros b Hb. rewrite IH, Hb, Ha. rewrite Exists_cons, Hy.
        split; intros [[H _]|H]; try discriminate; auto; destruct H; [discriminate | auto]. }
      destruct c; apply Hstep; assumption.
    + rewrite min_by_step_none. split; [intros _ | reflexivity].
      apply float_partial_cmp_none in E as [E|E].
      * left. split; [exact E | discriminate].
      * right. apply Exists_cons_hd. exact E.
Qed.

(** C10. Taking the iteration-best panics exactly when the list of
    solutions is empty or holds at least two solutions one of which costs
    NaN: a single solution is never compared. An iteration with
    [ants_num = 0] panics. *)
Theorem find_best_panics_iff :
  (forall sols : list Solution64,
     find_best sol64_partial_cmp sols = None <->
     sols = [] \/
     (2 <= List.length sols /\ Exists (fun s => PrimFloat.is_nan (cost64 s) = true) sols)%nat) /\
  (forall env powf s w, ants_num (cfg s) = 0 -> iterate env powf s w = None).
Proof.
  split.
  - intros [|x xs].
    + simpl. split; [intros _; left; reflexivity | reflexivity].
    + cbn [find_best]. rewrite fold_min_by_none. split.
      * intros [[Hx Hxs]|Hex]; right; split.
        -- destruct xs; [congruence | simpl; lia].
        -- apply Exists_cons_hd. exact Hx.
        -- destruct xs; [inversion Hex | simpl; lia].
        -- apply Exists_cons_tl. exact Hex.
      * intros [H|[Hl Hex]]; [discriminate|].
        apply Exists_cons in Hex as [Hx|Hex]; [left | right; exact Hex].
        split; [exact Hx|]. destruct xs; simpl in Hl; [lia | discriminate].
  - intros env powf s w H0. unfold iterate, run_ants. rewrite H0.
    destruct (prob_matrix powf (alpha (cfg s)) (beta (cfg s)) (pheromone s) (heuristic (cfg s)));
      reflexivity.
Qed.

(** C10, counterexample: a single solution of NaN cost is selected without
    a panic. *)
Lemma find_best_single_nan :
  PrimFloat.is_nan (cost64 (mkSolution64 tour3_f nan)) = true /\
  find_best sol64_partial_cmp [mkSolution64 tour3_f nan] = Some (mkSolution64 tour3_f nan).
Proof. split; reflexivity. Qed.

(* ------------------------------------------------------------------ *)
(** ** One iteration *)

Lemma ant_loop_out (fuel : nat) (env : Env) (prob : FMatrix) (n first last : nat)
    (unvisited : list nat) (sol : FMatrix) (pos : nat) m out p :
  ant_loop fuel env prob n first last unvisited sol pos = Some (m, out, p) ->
  Forall is_println out.
Proof.
  revert last unvisited sol pos.
  induction fuel as [|fuel IH]; intros last unvisited sol pos H;
    (destruct unvisited as [|u us]; cbn [ant_loop] in H;
     [inversion H; constructor|]);
    (destruct (negb _); [inversion H; repeat constructor|]);
    [discriminate | eapply IH; exact H].
Qed.

Lemma run_ant_out (env : Env) (prob : FMatrix) (pos : nat) m out p :
  run_ant env prob pos = Some (m, out, p) -> Forall is_println out.
Proof.
  unfold run_ant. destruct (nrows prob =? 0); [discriminate|]. apply ant_loop_out.
Qed.

Lemma run_ants_loop_trace (env : Env) (prob : FMatrix) (k : nat) (w w' : World) ms :
  run_ants_loop env prob k w = Some (ms, w') ->
  exists diags, trace w' = trace w ++ diags /\ Forall is_println diags.
Proof.
  revert w ms. induction k as [|k IH]; intros w ms H; cbn [run_ants_loop] in H.
  - inversion H; subst. exists []. rewrite app_nil_r. split; [reflexivity | constructor].
  - destruct (run_ant env prob (rng_pos w)) as [[[m out] pos']|] eqn:Ea; [|discriminate].
    destruct (run_ants_loop env prob k (mkWorld (trace w ++ out) pos')) as [[ms0 w0]|] eqn:El;
      [|discriminate].
    inversion H; subst. apply IH in El as [d [Ht Hd]]. cbn [trace] in Ht.
    exists (out ++ d). rewrite Ht, app_assoc. split; [reflexivity|].
    apply Forall_app. split; [eapply run_ant_out; exact Ea | exact Hd].
Qed.

(** The ants do not read the trace: from any trace the loop builds the same
    matrices and appends the same lines. *)
Lemma run_ants_loop_world (env : Env) (prob : FMatrix) (k : nat) :
  forall t pos,
  run_ants_loop env prob k (mkWorld t pos) =
    option_map (fun p => (fst p, mkWorld (t ++ trace (snd p)) (rng_pos (snd p))))
      (run_ants_loop env prob k (mkWorld [] pos)).
Proof.
  induction k as [|k IH]; intros t pos; cbn [run_ants_loop].
  - cbn. rewrite app_nil_r. reflexivity.
  - cbn [rng_pos trace]. destruct (run_ant env prob pos) as [[[m out] pos']|]; [|reflexivity].
    rewrite (IH (t ++ out)), (IH ([] ++ out)).
    destruct (run_ants_loop env prob k (mkWorld [] pos')) as [[ms0 w0]|]; [|reflexivity].
    cbn. rewrite app_assoc. reflexivity.
Qed.

Lemma sol_gt_true (a b : Solution) : sol_gt a b = true <-> (cost b < cost a)%Q.
Proof.
  unfold sol_gt, sol_partial_cmp.
  destruct (Qcompare_spec (cost a) (cost b)) as [E|E|E]; split; intro H;
    try reflexivity; try discriminate; lra.
Qed.

Lemma sol_gt_false (a b : Solution) : sol_gt a b = false -> (cost a <= cost b)%Q.
Proof.
  intro H. apply Qnot_lt_le. intro Hlt. apply sol_gt_true in Hlt. congruence.
Qed.

(** What one iteration does: the ants' lines, the iteration-best, the
    new-best event when the retained best costs more, the pheromone
    update; the strategy's matrix is installed as it is. *)
Lemma iterate_shape (env : Env) (powf : Q -> Q -> Q) (s s' : AntSystem) (w w' : World) :
  iterate env powf s w = Some (s', w') ->
  exists diags sols best nb,
    trace w' = trace w ++ diags ++ [OnCurrentBest best] ++ nb ++
               [OnPheromoneUpdate (pheromone s) (pheromone s')] /\
    Forall is_println diags /\
    find_best sol_partial_cmp sols = Some best /\
    ((sol_gt (best_sol s) best = true /\ nb = [OnNewBest best] /\ best_sol s' = best) \/
     (sol_gt (best_sol s) best = false /\ nb = [] /\ best_sol s' = best_sol s)) /\
    pheromone s' = pheromone_update (cfg s) (pheromone s) sols (evaporation_rate (cfg s)) /\
    cfg s' = cfg s.
Proof.
  unfold iterate. intro H.
  destruct (run_ants env powf s w) as [[ms w1]|] eqn:Er; [|discriminate].
  destruct (grade (weights (cfg s)) ms) as [sols|] eqn:Eg; [|discriminate].
  destruct (find_best sol_partial_cmp sols) as [best|] eqn:Ef; [|discriminate].
  unfold run_ants in Er.
  destruct (prob_matrix powf (alpha (cfg s)) (beta (cfg s)) (pheromone s) (heuristic (cfg s)));
    [|discriminate].
  apply run_ants_loop_trace in Er as [diags [Ht Hd]].
  unfold update_best in H. destruct (sol_gt (best_sol s) best) eqn:Eb;
    inversion H; subst; clear H.
  - exists diags, sols, best, [OnNewBest best]. cbn. rewrite Ht.
    repeat rewrite <- app_assoc. cbn. repeat split; auto.
  - exists diags, sols, best, []. cbn. rewrite Ht.
    repeat rewrite <- app_assoc. cbn. repeat split; auto.
Qed.

(** One iteration, numbered [i] by the loop around it, gives the events
    [iteration_events] describes. *)
Lemma iterate_events (env : Env) (powf : Q -> Q -> Q) (i : nat) (s s' : AntSystem)
    (w w' : World) :
  iterate env powf s w = Some (s', w') ->
  exists core, trace w' = trace w ++ core /\
    iteration_events env powf i s (rng_pos w) s' (rng_pos w')
      ([OnIterationStart i] ++ core ++ [OnIterationEnd i]).
Proof.
  unfold iterate. intro H.
  destruct (run_ants env powf s w) as [[ms w1]|] eqn:Er; [|discriminate].
  destruct (grade (weights (cfg s)) ms) as [sols|] eqn:Eg; [|discriminate].
  destruct (find_best sol_partial_cmp sols) as [best|] eqn:Ef; [|discriminate].
  unfold run_ants in Er.
  destruct (prob_matrix powf (alpha (cfg s)) (beta (cfg s)) (pheromone s) (heuristic (cfg s)))
    as [prob|] eqn:Ep; [|discriminate].
  destruct w as [t pos].
  rewrite run_ants_loop_world in Er.
  destruct (run_ants_loop env prob (ants_num (cfg s)) (mkWorld [] pos)) as [[ms0 [d pos1]]|] eqn:El;
    [|discriminate].
  cbn in Er. injection Er as <- <-.
  assert (Hd : Forall is_println d).
  { apply run_ants_loop_trace in El as [d' [Ht Hd]]. cbn in Ht. subst d'. exact Hd. }
  unfold update_best in H. destruct (sol_gt (best_sol s) best) eqn:Eb;
    injection H as <- <-.
  - exists (d ++ [OnCurrentBest best] ++ [OnNewBest best] ++
            [OnPheromoneUpdate (pheromone s)
               (pheromone_update (cfg s) (pheromone s) sols (evaporation_rate (cfg s)))]).
    cbn [trace emit with_pheromone with_best rng_pos pheromone cfg best_sol].
    split; [repeat rewrite <- app_assoc; reflexivity|].
    exists prob, ms0, d, sols, best, [OnNewBest best].
    repeat (split; [eassumption || reflexivity|]).
    split; [left; repeat split; (exact Eb || reflexivity)|].
    split; [reflexivity|]. split; [reflexivity|].
    repeat rewrite <- app_assoc. reflexivity.
  - exists (d ++ [OnCurrentBest best] ++ [] ++
            [OnPheromoneUpdate (pheromone s)
               (pheromone_update (cfg s) (pheromone s) sols (evaporation_rate (cfg s)))]).
    cbn [trace emit with_pheromone with_best rng_pos pheromone cfg best_sol].
    split; [repeat rewrite <- app_assoc; reflexivity|].
    exists prob, ms0, d, sols, best, [].
    repeat (split; [eassumption || reflexivity|]).
    split; [right; repeat split; (exact Eb || reflexivity)|].
    split; [reflexivity|]. split; [reflexivity|].
    repeat rewrite <- app_assoc. reflexivity.
Qed.

(** C3. In every iteration the retained best is replaced by the
    iteration-best exactly when the iteration-best costs strictly less, and
    [on_new_best] fires exactly then. Otherwise the best is kept and
    [on_new_best] does not fire. The cost of the retained best never
    increases. *)
Theorem iterate_best_update (env : Env) (powf : Q -> Q -> Q) (s s' : AntSystem) (w w' : World)
    (H : iterate env powf s w = Some (s', w')) :
  exists best evs,
    trace w' = trace w ++ evs /\ In (OnCurrentBest best) evs /\
    (((cost best < cost (best_sol s))%Q /\ best_sol s' = best /\ In (OnNewBest best) evs) \/
     ((cost (best_sol s) <= cost best)%Q /\ best_sol s' = best_sol s /\
      forall b, ~ In (OnNewBest b) evs)) /\
    (cost (best_sol s') <= cost (best_sol s))%Q.
Proof.
  apply iterate_shape in H as [diags [sols [best [nb [Ht [Hd [_ [Hb _]]]]]]]].
  exists best, (diags ++ [OnCurrentBest best] ++ nb ++
                [OnPheromoneUpdate (pheromone s) (pheromone s')]).
  split; [exact Ht|]. split.
  { apply in_app_iff. right. left. reflexivity. }
  destruct Hb as [[Hgt [-> Hs']]|[Hgt [-> Hs']]].
  - apply sol_gt_true in Hgt. split.
    + left. split; [exact Hgt|]. split; [exact Hs'|].
      apply in_app_iff. right. right. left. reflexivity.
    + rewrite Hs'. apply Qlt_le_weak. exact Hgt.
  - apply sol_gt_false in Hgt. split.
    + right. split; [exact Hgt|]. split; [exact Hs'|].
      intros b Hin. rewrite Forall_forall in Hd.
      apply in_app_iff in Hin as [Hin|Hin]; [apply Hd in Hin; exact Hin|].
      simpl in Hin. destruct Hin as [Hin|[Hin|[]]]; discriminate.
    + rewrite Hs'. apply Qle_refl.
Qed.

(** Witness for [iterate_best_update]: one iteration of the three-node
    system. *)
Lemma iterate_best_update_witness :
  exists s' w',
    iterate env0 powf_int (sys3 1 keep_update) world0 = Some (s', w') /\
    (cost (best_sol s') <= cost (best_sol (sys3 1 keep_update)))%Q.
Proof.
  destruct (iterate env0 powf_int (sys3 1 keep_update) world0) as [[s' w']|] eqn:E;
    [|vm_compute in E; discriminate].
  exists s', w'. split; [reflexivity|].
  destruct (iterate_best_update env0 powf_int (sys3 1 keep_update) s' world0 w' E)
    as [best [evs [_ [_ [_ Hle]]]]].
  exact Hle.
Defined.

(* ------------------------------------------------------------------ *)
(** ** A whole run *)

Lemma run_from_events (env : Env) (powf : Q -> Q -> Q) (k i : nat)
    (s s' : AntSystem) (w w' : World) :
  run_from env powf k i s w = Some (s', w') ->
  exists evs, trace w' = trace w ++ evs /\
    iterations_trace env powf i k s (rng_pos w) s' evs.
Proof.
  revert i s w. induction k as [|k IH]; intros i s w H; cbn [run_from] in H.
  - inversion H; subst. exists []. rewrite app_nil_r. split; [reflexivity | constructor].
  - destruct (iterate env powf s (emit w (OnIterationStart i))) as [[s1 w1]|] eqn:E;
      [|discriminate].
    apply IH in H as [evs' [Ht Hit]].
    apply (iterate_events env powf i) in E as [core [Ht1 Hev]].
    exists (([OnIterationStart i] ++ core ++ [OnIterationEnd i]) ++ evs').
    split.
    + rewrite Ht. cbn [trace emit]. rewrite Ht1. cbn [trace emit].
      repeat rewrite <- app_assoc. reflexivity.
    + eapply itr_step; [exact Hev | exact Hit].
Qed.

Lemma iterations_trace_no_end (env : Env) (powf : Q -> Q -> Q) (i k : nat)
    (s : AntSystem) (pos : nat) (s' : AntSystem) (evs : list Event) :
  iterations_trace env powf i k s pos s' evs -> ~ In OnEnd evs.
Proof.
  induction 1 as [i s pos|i k s pos s1 pos1 s2 evs evs' Hev _ IH]; [intros []|].
  intro Hin. apply in_app_iff in Hin as [Hin|Hin]; [|exact (IH Hin)].
  destruct Hev as [prob [ms [diags [sols [best [nb [_ [_ [Hd [_ [_ [Hnb [_ [_ ->]]]]]]]]]]]]]].
  rewrite Forall_forall in Hd.
  assert (Hnb' : nb = [] \/ nb = [OnNewBest best])
    by (destruct Hnb as [[_ [-> _]]|[_ [-> _]]]; auto).
  repeat (apply in_app_iff in Hin as [Hin|Hin]);
    try (destruct Hnb' as [->| ->]);
    try (apply Hd in Hin; exact Hin);
    simpl in Hin; repeat (destruct Hin as [Hin|Hin]; [discriminate|]); exact Hin.
Qed.

(** C8. A run of [N] iterations emits, after anything already in the
    trace, the events of iterations [0 .. N-1] in that order, each being
    [on_iteration_start i], the ants' lines, [on_current_best] with the
    first cheapest of the ants' graded solutions, [on_new_best] with it
    exactly when it costs less than the retained best (which it then
    replaces), [on_pheromone_update old new] (the new matrix being the
    strategy's result, which the next iteration starts from) and
    [on_iteration_end i]; then [on_end], once. *)
Theorem run_events (env : Env) (powf : Q -> Q -> Q) (s s' : AntSystem) (w w' : World)
    (H : run env powf s w = Some (s', w')) :
  exists evs,
    trace w' = trace w ++ evs ++ [OnEnd] /\
    iterations_trace env powf 0 (iteration (cfg s)) s (rng_pos w) s' evs /\
    ~ In OnEnd evs.
Proof.
  unfold run in H.
  destruct (run_from env powf (iteration (cfg s)) 0 s w) as [[s1 w1]|] eqn:E; [|discriminate].
  unfold end_ in H. inversion H; subst; clear H.
  apply run_from_events in E as [evs [Ht Hit]].
  exists evs. split; [|split; [exact Hit | eapply iterations_trace_no_end; exact Hit]].
  cbn [trace emit]. rewrite Ht, <- app_assoc. reflexivity.
Qed.

(** Witness for [run_events]: two iterations of the three-node system. *)
Lemma run_events_witness :
  exists s' w',
    run env0 powf_int (sys3 2 keep_update) world0 = Some (s', w') /\
    exists evs, trace w' = trace world0 ++ evs ++ [OnEnd] /\
      iterations_trace env0 powf_int 0 2 (sys3 2 keep_update) 0 s' evs.
Proof.
  destruct (run env0 powf_int (sys3 2 keep_update) world0) as [[s' w']|] eqn:E;
    [|vm_compute in E; discriminate].
  exists s', w'. split; [reflexivity|].
  destruct (run_events env0 powf_int (sys3 2 keep_update) s' world0 w' E)
    as [evs [Ht [Hit _]]].
  exists evs. split; [exact Ht | exact Hit].
Defined.

(** C8, counterexample: the iterations are numbered from 0; a run of one
    iteration starts with [on_iteration_start 0] and never reports
    iteration 1. *)
Lemma run_iteration_index_from_zero :
  match run env0 powf_int (sys3 1 keep_update) world0 with
  | Some (_, w') =>
      hd OnEnd (trace w') = OnIterationStart 0 /\
      ~ In (OnIterationStart 1) (trace w') /\ ~ In (OnIterationEnd 1) (trace w')
  | None => False
  end.
Proof.
  vm_compute. split; [reflexivity|].
  split; intro Hin; repeat (destruct Hin as [Hin|Hin]; [discriminate|]); exact Hin.
Qed.

(** C9. With zero iterations, [run] builds no ant, grades nothing, leaves
    the state (pheromone included) and the random source as they are, and
    emits [on_end] only. *)
Theorem run_zero_iterations (env : Env) (powf : Q -> Q -> Q) (s : AntSystem) (w : World)
    (H0 : iteration (cfg s) = 0) :
  run env powf s w = Some (s, mkWorld (trace w ++ [OnEnd]) (rng_pos w)).
Proof. unfold run. rewrite H0. reflexivity. Qed.

(** Witness for [run_zero_iterations]. *)
Lemma run_zero_iterations_witness :
  iteration (cfg (sys3 0 keep_update)) = 0 /\
  run env0 powf_int (sys3 0 keep_update) world0
    = Some (sys3 0 keep_update, mkWorld (trace world0 ++ [OnEnd]) (rng_pos world0)).
Proof.
  split; [reflexivity|]. apply run_zero_iterations. reflexivity.
Defined.

(** C9, counterexample: a run of zero iterations emits [on_end] and no
    start notification. *)
Lemma run_zero_iterations_only_end :
  match run env0 powf_int (sys3 0 keep_update) world0 with
  | Some (_, w') => trace w' = [OnEnd]
  | None => False
  end.
Proof. vm_compute. reflexivity. Qed.

(* ================================================================== *)
(** * Further properties of the engine *)

(* ------------------------------------------------------------------ *)
(** ** The roulette scan of [run_ant] *)

Lemma row_sum_cons (row : nat -> Q) (v : nat) (l : list nat) :
  (row_sum row (v :: l) == row v + row_sum row l)%Q.
Proof.
  unfold row_sum. rewrite !row_sum_acc. cbn [fold_right]. ring.
Qed.

Lemma row_sum_nil (row : nat -> Q) : row_sum row [] = 0%Q.
Proof. reflexivity. Qed.

Lemma row_sum_app1 (row : nat -> Q) (l : list nat) (v : nat) :
  (row_sum row (l ++ [v]) == row_sum row l + row v)%Q.
Proof. unfold row_sum. rewrite fold_left_app. reflexivity. Qed.

(** The roulette wheel: for a draw [0 <= r < sum], with no sign assumption
    on the weights, the scan picks the node [v]
    at which the running total first reaches [r]: the total through [v] is
    at least [r], the total through every earlier node is below [r]; for
    [r > 0] the picked node has a positive weight. *)
Theorem select_roulette (row : nat -> Q) (r : Q) (l : list nat) (d : nat)
    (H0 : (0 <= r)%Q) (Hlt : (r < row_sum row l)%Q) :
  exists pre post,
    l = pre ++ select row r l d :: post /\
    (r <= row_sum row (pre ++ [select row r l d]))%Q /\
    (forall k, k < List.length pre -> (row_sum row (firstn (S k) pre) < r)%Q) /\
    ((0 < r)%Q -> (0 < row (select row r l d))%Q).
Proof.
  revert r H0 Hlt. induction l as [|v l IH]; intros r H0 Hlt.
  - rewrite row_sum_nil in Hlt. exfalso. apply (Qlt_irrefl 0).
    apply Qle_lt_trans with r; assumption.
  - rewrite row_sum_cons in Hlt. cbn [select].
    destruct (Qle_bool (r - row v) 0) eqn:E.
    + apply Qle_bool_iff in E. exists [], l. split; [reflexivity|].
      split; [cbn; lra|]. split; [intros k Hk; cbn in Hk; lia|]. intro Hr. lra.
    + assert (Hgt : (0 < r - row v)%Q).
      { apply Qnot_le_lt. intro Hle. apply Qle_bool_iff in Hle. congruence. }
      destruct (IH (r - row v)%Q) as [pre [post [Hl [Hle [Hpre Hpos]]]]]; [lra | lra |].
      exists (v :: pre), post. split; [rewrite Hl at 1; reflexivity|].
      split; [|split].
      * change ((v :: pre) ++ [select row (r - row v) l d]) with
               (v :: (pre ++ [select row (r - row v) l d])).
        rewrite row_sum_cons. lra.
      * intros [|k] Hk.
        -- cbn [firstn]. rewrite row_sum_cons, row_sum_nil. lra.
        -- cbn [firstn List.length] in *. rewrite row_sum_cons.
           assert (Hk' : k < List.length pre) by lia.
           specialize (Hpre k Hk'). lra.
      * intros _. apply Hpos. exact Hgt.
Qed.

(** Witness for [select_roulette]: weights 1, 0, 2 and the draw 1; node 2
    is picked. *)
Lemma select_roulette_witness :
  (0 <= 1)%Q /\ (1 < row_sum row102 (seq 0 3))%Q /\
  exists pre post,
    (seq 0 3) = pre ++ select row102 1 (seq 0 3) 0 :: post /\
    (1 <= row_sum row102 (pre ++ [select row102 1 (seq 0 3) 0]))%Q /\
    (forall k, k < List.length pre -> (row_sum row102 (firstn (S k) pre) < 1)%Q) /\
    ((0 < 1)%Q -> (0 < row102 (select row102 1 (seq 0 3) 0))%Q).
Proof.
  split; [vm_compute; discriminate|]. split; [vm_compute; reflexivity|].
  apply select_roulette; [vm_compute; discriminate | vm_compute; reflexivity].
Defined.

(* ------------------------------------------------------------------ *)
(** ** [grade] *)

Lemma grade_one_none {K} `{Scalar K} (W m : Matrix K) :
  grade_one W m = None <-> ~ (nrows m = nrows W /\ ncols m = ncols W).
Proof.
  unfold grade_one, component_mul, same_shape.
  destruct (Nat.eqb_spec (nrows m) (nrows W)), (Nat.eqb_spec (ncols m) (ncols W));
    simpl; split; intro Hx; try discriminate; try reflexivity; try tauto.
Qed.

(** [grade] panics exactly when some matrix does not have the shape of the
    weights; otherwise it keeps the matrices in order, each with its
    [grade_one] cost. *)
Theorem grade_spec (weights : FMatrix) (ms : list FMatrix) :
  (grade weights ms = None <->
   Exists (fun m => ~ (nrows m = nrows weights /\ ncols m = ncols weights)) ms) /\
  (forall sols, grade weights ms = Some sols ->
     map matrix sols = ms /\
     Forall (fun s => grade_one weights (matrix s) = Some (cost s)) sols).
Proof.
  induction ms as [|m ms [IHn IHs]].
  - split.
    + split; [discriminate | intro H; inversion H].
    + intros sols H. inversion H. split; [reflexivity | constructor].
  - cbn [grade]. rewrite Exists_cons, <- grade_one_none, <- IHn.
    destruct (grade_one weights m) as [c|] eqn:E1, (grade weights ms) as [sols'|] eqn:E2.
    + split; [split; [discriminate | intros [H|H]; discriminate]|].
      intros sols H. inversion H; subst; clear H.
      destruct (IHs sols' eq_refl) as [Hm Hf]. cbn [map matrix].
      rewrite Hm. split; [reflexivity|]. constructor; [exact E1 | exact Hf].
    + split; [split; [intros _; right; reflexivity | reflexivity] | discriminate].
    + split; [split; [intros _; left; reflexivity | reflexivity] | discriminate].
    + split; [split; [intros _; left; reflexivity | reflexivity] | discriminate].
Qed.

(* ------------------------------------------------------------------ *)
(** ** The probability matrix and [from_iterator] *)

Lemma nth_combine_lt {A B} (l1 : list A) (l2 : list B) (k : nat) (da : A) (db : B) :
  k < List.length l1 -> k < List.length l2 ->
  nth k (combine l1 l2) (da, db) = (nth k l1 da, nth k l2 db).
Proof.
  revert l2 k. induction l1 as [|a l1 IH]; intros [|b l2] [|k] H1 H2; simpl in *;
    try lia; try reflexivity.
  apply IH; lia.
Qed.

(** Building the probability matrix panics exactly when the heuristic has
    fewer entries than the pheromone. Otherwise the matrix has the
    pheromone's dimensions, and its entry [(i, j)] pairs [P[i,j]] with the
    heuristic's entry at the same column-major position, which is [H[i,j]]
    only when the shapes agree: a heuristic of another shape with enough
    entries is accepted. *)
Theorem prob_matrix_from_iterator {K} `{Scalar K} (powf : K -> K -> K) (alpha beta : K)
    (P Hm : Matrix K) :
  (prob_matrix powf alpha beta P Hm = None <-> ncols Hm * nrows Hm < nrows P * ncols P) /\
  (forall W, prob_matrix powf alpha beta P Hm = Some W ->
     nrows W = nrows P /\ ncols W = ncols P /\
     forall i j, i < nrows P -> j < ncols P ->
       entry W i j = calc_prob powf alpha beta (entry P i j)
                       (nth (i + j * nrows P) (iter Hm) zero)).
Proof.
  unfold prob_matrix, from_iterator.
  rewrite length_map, length_combine, !length_iter.
  destruct (Nat.ltb_spec (Nat.min (ncols P * nrows P) (ncols Hm * nrows Hm))
                         (nrows P * ncols P)) as [Hl|Hl].
  - split; [split; [intros _; lia | reflexivity] | discriminate].
  - split; [split; [discriminate | intro; lia]|].
    intros W HW. injection HW as <-. cbn [nrows ncols entry].
    split; [reflexivity|]. split; [reflexivity|].
    intros i j Hi Hj.
    assert (HkP : i + j * nrows P < List.length (iter P)) by (rewrite length_iter; nia).
    assert (HkH : i + j * nrows P < List.length (iter Hm)) by (rewrite length_iter; nia).
    rewrite nth_indep with (d' := calc_prob powf alpha beta (fst (zero, zero)) (snd (zero, zero)))
      by (rewrite length_map, length_combine; lia).
    rewrite (map_nth (fun ph => calc_prob powf alpha beta (fst ph) (snd ph))).
    rewrite nth_combine_lt by assumption. cbn [fst snd].
    rewrite nth_iter by assumption. reflexivity.
Qed.

(* ------------------------------------------------------------------ *)
(** ** [run_ant]: when it panics, what it returns *)

Lemma remove_node_length_lt (x : nat) (l : list nat) :
  In x l -> List.length (remove_node x l) < List.length l.
Proof.
  induction l as [|a l IH]; intro Hx; [destruct Hx|].
  unfold remove_node in *. cbn [filter].
  destruct (Nat.eqb_spec a x) as [->|Hne]; cbn [negb List.length].
  - pose proof (filter_length_le (fun y => negb (y =? x)) l). lia.
  - destruct Hx as [Hx|Hx]; [congruence|]. specialize (IH Hx). cbn [List.length]. lia.
Qed.

Lemma remove_node_In (x v : nat) (l : list nat) :
  In v (remove_node x l) <-> In v l /\ v <> x.
Proof.
  unfold remove_node. rewrite filter_In, negb_true_iff, Nat.eqb_neq. reflexivity.
Qed.

Lemma row_sum_fold_right (row : nat -> Q) (l : list nat) :
  (row_sum row l == fold_right (fun v acc => row v + acc) 0 l)%Q.
Proof. unfold row_sum. rewrite row_sum_acc. ring. Qed.

Lemma Qltb_true (a b : Q) : Qltb a b = true <-> (a < b)%Q.
Proof.
  unfold Qltb. rewrite negb_true_iff. split; intro H.
  - apply Qnot_le_lt. intro Hle. apply Qle_bool_iff in Hle. congruence.
  - destruct (Qle_bool b a) eqn:E; [|reflexivity].
    apply Qle_bool_iff in E. exfalso. apply (Qlt_irrefl a). apply Qlt_le_trans with b; assumption.
Qed.

(** One round of the loop, when it does not abort: the next node is an
    unvisited one. *)
Lemma ant_loop_next_in (env : Env) (Henv : env_ok env) (row : nat -> Q) (pos d : nat)
    (l : list nat) :
  Qltb 0 (row_sum row l) = true ->
  In (select row (gen_real env pos (row_sum row l)) l d) l.
Proof.
  intro Hs. apply Qltb_true in Hs.
  destruct (proj1 (proj2 Henv) pos (row_sum row l) Hs) as [H0 H1].
  apply select_in; [exact H0|]. rewrite <- row_sum_fold_right. exact H1.
Qed.

Lemma ant_loop_some (env : Env) (Henv : env_ok env) (prob : FMatrix) (n first : nat) :
  forall fuel last unvisited sol pos,
    List.length unvisited <= fuel ->
    ant_loop fuel env prob n first last unvisited sol pos <> None.
Proof.
  induction fuel as [|fuel IH]; intros last unvisited sol pos Hlen;
    (destruct unvisited as [|x xs]; cbn [ant_loop]; [discriminate|]);
    (destruct (negb (Qltb 0 (row_sum (entry prob last) (x :: xs)))) eqn:Eab; [discriminate|]).
  - cbn [List.length] in Hlen. lia.
  - apply negb_false_iff in Eab. apply IH.
    pose proof (remove_node_length_lt _ _ (ant_loop_next_in env Henv (entry prob last) pos last
                                               (x :: xs) Eab)).
    lia.
Qed.

Lemma ant_loop_shape (fuel : nat) (env : Env) (prob : FMatrix) (n first : nat) :
  forall last unvisited sol pos sol' out p,
    ant_loop fuel env prob n first last unvisited sol pos = Some (sol', out, p) ->
    nrows sol = n -> ncols sol = n ->
    nrows sol' = n /\ ncols sol' = n /\
    (out = [] \/ (out = [Println no_solution_msg] /\ sol' = zeros n n)).
Proof.
  induction fuel as [|fuel IH]; intros last unvisited sol pos sol' out p H Hr Hc;
    (destruct unvisited as [|x xs]; cbn [ant_loop] in H;
     [injection H as <- <- _; split; [exact Hr|]; split; [exact Hc | left; reflexivity]|]);
    (destruct (negb _);
     [injection H as <- <- _; split; [reflexivity|]; split; [reflexivity | right; split; reflexivity]|]).
  - discriminate.
  - eapply IH; [exact H | exact Hr | exact Hc].
Qed.

Lemma row_sum_pos (row : nat -> Q) (l : list nat) :
  l <> [] -> (forall v, In v l -> (0 < row v)%Q) -> (0 < row_sum row l)%Q.
Proof.
  induction l as [|v l IH]; intros Hne Hpos; [congruence|].
  rewrite row_sum_cons.
  assert (Hv : (0 < row v)%Q) by (apply Hpos; left; reflexivity).
  destruct l as [|u l].
  - rewrite row_sum_nil. lra.
  - assert (Hl : (0 < row_sum row (u :: l))%Q)
      by (apply IH; [discriminate | intros; apply Hpos; right; assumption]).
    lra.
Qed.

Lemma ant_loop_no_abort (env : Env) (Henv : env_ok env) (prob : FMatrix) (n first : nat)
    (Hpos : forall i j, i < n -> j < n -> i <> j -> (0 < entry prob i j)%Q) :
  forall fuel last unvisited sol pos sol' out p,
    last < n -> (forall v, In v unvisited -> v < n /\ v <> last) ->
    ant_loop fuel env prob n first last unvisited sol pos = Some (sol', out, p) ->
    out = [].
Proof.
  induction fuel as [|fuel IH]; intros last unvisited sol pos sol' out p Hlast Hun H;
    (destruct unvisited as [|x xs]; cbn [ant_loop] in H; [injection H as _ <- _; reflexivity|]);
    (assert (Hs : Qltb 0 (row_sum (entry prob last) (x :: xs)) = true)
       by (apply Qltb_true, row_sum_pos; [discriminate|];
           intros v Hv; destruct (Hun v Hv); apply Hpos; auto));
    rewrite Hs in H; cbn [negb] in H.
  - discriminate.
  - pose proof (ant_loop_next_in env Henv (entry prob last) pos last (x :: xs) Hs) as Hin.
    eapply IH; [| | exact H].
    + apply Hun. exact Hin.
    + intros v Hv. apply remove_node_In in Hv as [Hv Hne].
      split; [apply Hun; exact Hv | exact Hne].
Qed.

Lemma run_ant_some (env : Env) (prob : FMatrix) (pos : nat) :
  env_ok env -> nrows prob <> 0 -> run_ant env prob pos <> None.
Proof.
  intros Henv H0. unfold run_ant. destruct (Nat.eqb_spec (nrows prob) 0) as [E|_]; [lia|].
  apply ant_loop_some; [exact Henv|].
  pose proof (filter_length_le (fun y => negb (y =? gen_index env pos (nrows prob)))
                (hash_order env pos (nrows prob))) as Hf.
  rewrite (Permutation_length (proj2 (proj2 Henv) pos (nrows prob))), length_seq in Hf.
  exact Hf.
Qed.

Lemma run_ant_shape (env : Env) (prob : FMatrix) (pos : nat) sol out p :
  run_ant env prob pos = Some (sol, out, p) ->
  nrows sol = nrows prob /\ ncols sol = nrows prob /\
  (out = [] \/ (out = [Println no_solution_msg] /\ sol = zeros (nrows prob) (nrows prob))).
Proof.
  unfold run_ant. destruct (nrows prob =? 0); [discriminate|].
  intro H. eapply ant_loop_shape; [exact H | reflexivity | reflexivity].
Qed.

(** [run_ant] panics (in [gen_range(0..0)]) exactly when the matrix has no
    row. Otherwise it returns an [n x n] matrix, and either no line is
    printed or the line "Could not find a solution" is printed and the
    matrix is all zeros. *)
Theorem run_ant_result (env : Env) (prob : FMatrix) (pos : nat)
    (Henv : env_ok env) (Hsq : nrows prob <= ncols prob) :
  (run_ant env prob pos = None <-> nrows prob = 0) /\
  (forall sol out p, run_ant env prob pos = Some (sol, out, p) ->
     nrows sol = nrows prob /\ ncols sol = nrows prob /\
     (out = [] \/
      (out = [Println no_solution_msg] /\ sol = zeros (nrows prob) (nrows prob)))).
Proof.
  split; [|apply run_ant_shape].
  split.
  - intro H. destruct (Nat.eq_dec (nrows prob) 0) as [E|E]; [exact E|].
    exfalso. exact (run_ant_some env prob pos Henv E H).
  - intro H0. unfold run_ant. rewrite H0. reflexivity.
Qed.

(** Witness for [run_ant_result]: three nodes, all weights 1. *)
Lemma run_ant_result_witness :
  env_ok env0 /\ nrows (ones 3) <= ncols (ones 3) /\
  (run_ant env0 (ones 3) 0 = None <-> nrows (ones 3) = 0) /\
  (forall sol out p, run_ant env0 (ones 3) 0 = Some (sol, out, p) ->
     nrows sol = nrows (ones 3) /\ ncols sol = nrows (ones 3) /\
     (out = [] \/
      (out = [Println no_solution_msg] /\ sol = zeros (nrows (ones 3)) (nrows (ones 3))))).
Proof.
  split; [exact env0_ok|]. split; [apply le_n|].
  apply run_ant_result; [exact env0_ok | apply le_n].
Defined.

(** With positive weights between distinct nodes, no ant aborts: [run_ant]
    returns a matrix and prints nothing. *)
Theorem run_ant_no_abort (env : Env) (prob : FMatrix) (pos : nat)
    (Henv : env_ok env) (Hsq : nrows prob <= ncols prob) (Hn : 0 < nrows prob)
    (Hpos : forall i j, i < nrows prob -> j < nrows prob -> i <> j -> (0 < entry prob i j)%Q) :
  exists sol p, run_ant env prob pos = Some (sol, [], p).
Proof.
  destruct (run_ant env prob pos) as [[[sol out] p]|] eqn:E.
  - exists sol, p. f_equal. f_equal. f_equal.
    unfold run_ant in E. destruct (Nat.eqb_spec (nrows prob) 0) as [H0|H0]; [lia|].
    eapply (ant_loop_no_abort env Henv prob (nrows prob) _ Hpos); [| |exact E].
    + apply (proj1 Henv). exact Hn.
    + intros v Hv. apply remove_node_In in Hv as [Hv Hne]. split; [|exact Hne].
      apply (Permutation_in _ (proj2 (proj2 Henv) pos (nrows prob))) in Hv.
      apply in_seq in Hv. lia.
  - exfalso. apply (run_ant_some env prob pos Henv); [lia | exact E].
Qed.

(** Witness for [run_ant_no_abort]: three nodes, all weights 1. *)
Lemma run_ant_no_abort_witness :
  env_ok env0 /\ exists sol p, run_ant env0 (ones 3) 0 = Some (sol, [], p).
Proof.
  split; [exact env0_ok|].
  apply run_ant_no_abort; [exact env0_ok | apply le_n | cbn; lia |].
  intros i j _ _ _. cbn. reflexivity.
Defined.

(* ------------------------------------------------------------------ *)
(** ** [run_ants] *)

Lemma run_ants_loop_ok (env : Env) (prob : FMatrix) (Henv : env_ok env)
    (Hn : nrows prob <> 0) :
  forall k w, exists ms w',
    run_ants_loop env prob k w = Some (ms, w') /\ List.length ms = k /\
    Forall (fun m => nrows m = nrows prob /\ ncols m = nrows prob) ms /\
    exists diags, trace w' = trace w ++ diags /\
      Forall (fun e => e = Println no_solution_msg) diags /\ List.length diags <= k.
Proof.
  induction k as [|k IH]; intros w; cbn [run_ants_loop].
  - exists [], w. split; [reflexivity|]. split; [reflexivity|]. split; [constructor|].
    exists []. rewrite app_nil_r. split; [reflexivity|]. split; [constructor | apply le_n].
  - destruct (run_ant env prob (rng_pos w)) as [[[m out] p]|] eqn:E;
      [|exfalso; exact (run_ant_some env prob (rng_pos w) Henv Hn E)].
    destruct (run_ant_shape env prob (rng_pos w) m out p E) as [Hr [Hc Hout]].
    destruct (IH (mkWorld (trace w ++ out) p)) as [ms [w' [Hl [Hlen [Hf [d [Ht [Hd Hdl]]]]]]]].
    rewrite Hl. exists (m :: ms), w'. split; [reflexivity|].
    split; [cbn; rewrite Hlen; reflexivity|]. split; [constructor; [split; assumption | exact Hf]|].
    exists (out ++ d). cbn [trace] in Ht. rewrite Ht, app_assoc. split; [reflexivity|].
    destruct Hout as [->|[-> _]]; cbn [app List.length].
    + split; [exact Hd | lia].
    + split; [constructor; [reflexivity | exact Hd] | lia].
Qed.

(** The ant loop of [run_ants]: over an [n x n] probability matrix with
    [n >= 1] it never panics, returns exactly [k] matrices, each [n x n],
    and prints at most [k] lines, all "Could not find a solution". *)
Theorem run_ants_loop_spec (env : Env) (prob : FMatrix) (k : nat) (w : World)
    (Henv : env_ok env) (Hsq : nrows prob <= ncols prob) (Hn : 0 < nrows prob) :
  exists ms w',
    run_ants_loop env prob k w = Some (ms, w') /\ List.length ms = k /\
    Forall (fun m => nrows m = nrows prob /\ ncols m = nrows prob) ms /\
    exists diags, trace w' = trace w ++ diags /\
      Forall (fun e => e = Println no_solution_msg) diags /\ List.length diags <= k.
Proof. apply run_ants_loop_ok; [exact Henv | lia]. Qed.

(** Witness for [run_ants_loop_spec]: two ants over three nodes. *)
Lemma run_ants_loop_spec_witness :
  env_ok env0 /\
  exists ms w',
    run_ants_loop env0 (ones 3) 2 world0 = Some (ms, w') /\ List.length ms = 2 /\
    Forall (fun m => nrows m = 3 /\ ncols m = 3) ms /\
    exists diags, trace w' = trace world0 ++ diags /\
      Forall (fun e => e = Println no_solution_msg) diags /\ List.length diags <= 2.
Proof.
  split; [exact env0_ok|].
  apply (run_ants_loop_spec env0 (ones 3) 2 world0 env0_ok); cbn; lia.
Defined.

(* ------------------------------------------------------------------ *)
(** ** A whole run *)

Lemma fold_min_by_some (xs : list Solution) (a : Solution) :
  exists b, fold_left (min_by_step sol_partial_cmp) xs (Some a) = Some b.
Proof.
  revert a. induction xs as [|y ys IH]; intro a; cbn [fold_left]; [exists a; reflexivity|].
  unfold min_by_step at 2, sol_partial_cmp.
  destruct (cost a ?= cost y)%Q; apply IH.
Qed.

Lemma grade_some (weights : FMatrix) (ms : list FMatrix) :
  Forall (fun m => nrows m = nrows weights /\ ncols m = ncols weights) ms ->
  exists sols, grade weights ms = Some sols /\ List.length sols = List.length ms.
Proof.
  induction 1 as [|m ms [Hr Hc] _ [sols [Hg Hl]]].
  - exists []. split; reflexivity.
  - cbn [grade]. unfold grade_one at 1, component_mul at 1, same_shape at 1.
    rewrite Hr, Hc, !Nat.eqb_refl. cbn [andb]. rewrite Hg.
    eexists. split; [reflexivity|]. cbn. rewrite Hl. reflexivity.
Qed.

Lemma prob_matrix_square {K} `{Scalar K} (powf : K -> K -> K) (alpha beta : K)
    (P Hm : Matrix K) (n : nat) :
  nrows P = n -> ncols P = n -> nrows Hm = n -> ncols Hm = n ->
  exists W, prob_matrix powf alpha beta P Hm = Some W /\ nrows W = n /\ ncols W = n.
Proof.
  intros H1 H2 H3 H4. unfold prob_matrix, from_iterator.
  rewrite length_map, length_combine, !length_iter, H1, H2, H3, H4, Nat.min_id.
  rewrite Nat.ltb_irrefl.
  eexists. split; [reflexivity|]. cbn. split; reflexivity.
Qed.

Section Run.
Variable env : Env.
Variable powf : Q -> Q -> Q.
Variable n : nat.
Hypothesis Henv : env_ok env.
Hypothesis Hn : 0 < n.

Lemma iterate_ok (s : AntSystem) (w : World) :
  cfg_ok n (cfg s) -> nrows (pheromone s) = n -> ncols (pheromone s) = n ->
  exists s' w', iterate env powf s w = Some (s', w') /\ cfg s' = cfg s /\
    nrows (pheromone s') = n /\ ncols (pheromone s') = n.
Proof.
  intros [Hhr [Hhc [Hwr [Hwc [Hants Hupd]]]]] Hpr Hpc.
  unfold iterate, run_ants.
  destruct (prob_matrix_square powf (alpha (cfg s)) (beta (cfg s)) (pheromone s)
              (heuristic (cfg s)) n Hpr Hpc Hhr Hhc) as [prob [Hp [Hqr Hqc]]].
  rewrite Hp.
  destruct (run_ants_loop_ok env prob Henv ltac:(lia) (ants_num (cfg s)) w)
    as [ms [w1 [Hl [Hlen [Hf _]]]]].
  rewrite Hl.
  destruct (grade_some (weights (cfg s)) ms) as [sols [Hg Hgl]].
  { eapply Forall_impl; [|exact Hf]. intros m [Hr Hc]. lia. }
  rewrite Hg.
  destruct sols as [|x xs]; [cbn in Hgl; lia|].
  cbn [find_best]. destruct (fold_min_by_some xs x) as [best Hb]. rewrite Hb.
  destruct (Hupd (pheromone s) (x :: xs) (evaporation_rate (cfg s)) Hpr Hpc) as [Hur Huc].
  unfold update_best. destruct (sol_gt (best_sol s) best).
  all: do 2 eexists; split; [reflexivity|]; cbn; repeat split; try reflexivity; assumption.
Qed.

(** With the dimensions of [cfg_dims] and an [n x n] pheromone, an
    iteration completes, whatever the strategy returns. *)
Lemma iterate_dims (s : AntSystem) (w : World) :
  cfg_dims n (cfg s) -> nrows (pheromone s) = n -> ncols (pheromone s) = n ->
  exists s' w', iterate env powf s w = Some (s', w').
Proof.
  intros [Hhr [Hhc [Hwr [Hwc Hants]]]] Hpr Hpc.
  unfold iterate, run_ants.
  destruct (prob_matrix_square powf (alpha (cfg s)) (beta (cfg s)) (pheromone s)
              (heuristic (cfg s)) n Hpr Hpc Hhr Hhc) as [prob [Hp [Hqr Hqc]]].
  rewrite Hp.
  destruct (run_ants_loop_ok env prob Henv ltac:(lia) (ants_num (cfg s)) w)
    as [ms [w1 [Hl [Hlen [Hf _]]]]].
  rewrite Hl.
  destruct (grade_some (weights (cfg s)) ms) as [sols [Hg Hgl]].
  { eapply Forall_impl; [|exact Hf]. intros m [Hr Hc]. lia. }
  rewrite Hg.
  destruct sols as [|x xs]; [cbn in Hgl; lia|].
  cbn [find_best]. destruct (fold_min_by_some xs x) as [best Hb]. rewrite Hb.
  unfold update_best. destruct (sol_gt (best_sol s) best); do 2 eexists; reflexivity.
Qed.

Lemma run_from_ok (k : nat) :
  forall i s w, cfg_ok n (cfg s) -> nrows (pheromone s) = n -> ncols (pheromone s) = n ->
  exists s' w', run_from env powf k i s w = Some (s', w') /\ cfg s' = cfg s /\
    nrows (pheromone s') = n /\ ncols (pheromone s') = n.
Proof.
  induction k as [|k IH]; intros i s w Hc Hpr Hpc; cbn [run_from].
  - exists s, w. split; [reflexivity|]. split; [reflexivity|]. split; assumption.
  - destruct (iterate_ok s (emit w (OnIterationStart i)) Hc Hpr Hpc)
      as [s1 [w1 [Hi [Hcfg [Hr1 Hc1]]]]].
    rewrite Hi. rewrite <- Hcfg in Hc.
    destruct (IH (S i) s1 (emit w1 (OnIterationEnd i)) Hc Hr1 Hc1)
      as [s' [w' [Hrun [Hcfg' Hdim]]]].
    exists s', w'. split; [exact Hrun|]. split; [congruence | exact Hdim].
Qed.

End Run.

(** With exact arithmetic, a run over [n x n] pheromone, heuristic and
    weights ([n >= 1]), at least one ant and a strategy that keeps the
    pheromone [n x n] never panics: it completes every iteration, keeps the
    configuration, and ends with an [n x n] pheromone. *)
Theorem run_completes (env : Env) (powf : Q -> Q -> Q) (n : nat) (s : AntSystem) (w : World)
    (Henv : env_ok env) (Hn : 0 < n) (Hcfg : cfg_ok n (cfg s))
    (Hpr : nrows (pheromone s) = n) (Hpc : ncols (pheromone s) = n) :
  exists s' w', run env powf s w = Some (s', w') /\ cfg s' = cfg s /\
    nrows (pheromone s') = n /\ ncols (pheromone s') = n.
Proof.
  unfold run.
  destruct (run_from_ok env powf n Henv Hn (iteration (cfg s)) 0 s w Hcfg Hpr Hpc)
    as [s' [w' [Hrun Hrest]]].
  rewrite Hrun. exists s', (emit w' OnEnd). split; [reflexivity | exact Hrest].
Qed.

(** Witness for [run_completes]: two iterations over three nodes. *)
Lemma run_completes_witness :
  env_ok env0 /\ cfg_ok 3 (cfg (sys3 2 keep_update)) /\
  exists s' w', run env0 powf_int (sys3 2 keep_update) world0 = Some (s', w') /\
    cfg s' = cfg (sys3 2 keep_update) /\ nrows (pheromone s') = 3 /\ ncols (pheromone s') = 3.
Proof.
  assert (Hc : cfg_ok 3 (cfg (sys3 2 keep_update))).
  { cbn. split; [reflexivity|]. split; [reflexivity|]. split; [reflexivity|].
    split; [reflexivity|]. split; [cbn; lia|]. intros p sols e H1 H2. cbn. split; assumption. }
  split; [exact env0_ok|]. split; [exact Hc|].
  apply (run_completes env0 powf_int 3 (sys3 2 keep_update) world0 env0_ok);
    [lia | exact Hc | reflexivity | reflexivity].
Defined.

(** C6. No shape check at the update: with [n x n] heuristic, weights and
    pheromone ([n >= 1]) and at least one ant, an iteration completes and
    installs the strategy's result as the pheromone whatever its shape,
    passing it to [on_pheromone_update]; a run of one iteration ends
    normally, with [on_end], with that matrix installed. *)
Theorem iterate_installs_strategy_result (env : Env) (powf : Q -> Q -> Q) (n : nat)
    (s : AntSystem) (w : World)
    (Henv : env_ok env) (Hn : 0 < n) (Hcfg : cfg_dims n (cfg s))
    (Hpr : nrows (pheromone s) = n) (Hpc : ncols (pheromone s) = n) :
  (exists s' w' sols,
     iterate env powf s w = Some (s', w') /\
     pheromone s' = pheromone_update (cfg s) (pheromone s) sols (evaporation_rate (cfg s)) /\
     In (OnPheromoneUpdate (pheromone s) (pheromone s')) (trace w')) /\
  (iteration (cfg s) = 1 ->
   exists s' w' sols,
     run env powf s w = Some (s', w') /\
     pheromone s' = pheromone_update (cfg s) (pheromone s) sols (evaporation_rate (cfg s)) /\
     In (OnPheromoneUpdate (pheromone s) (pheromone s')) (trace w') /\
     last (trace w') (OnIterationStart 0) = OnEnd).
Proof.
  assert (Hit : forall w0, exists s' w' sols,
     iterate env powf s w0 = Some (s', w') /\
     pheromone s' = pheromone_update (cfg s) (pheromone s) sols (evaporation_rate (cfg s)) /\
     In (OnPheromoneUpdate (pheromone s) (pheromone s')) (trace w')).
  { intro w0.
    destruct (iterate_dims env powf n Henv Hn s w0 Hcfg Hpr Hpc) as [s' [w' Hi]].
    exists s', w'. pose proof Hi as Hi'.
    apply iterate_shape in Hi' as [diags [sols [best [nb [Ht [_ [_ [_ [Hp _]]]]]]]]].
    exists sols. split; [exact Hi|]. split; [exact Hp|].
    rewrite Ht. repeat (apply in_app_iff; right). left. reflexivity. }
  split; [exact (Hit w)|]. intro H1.
  destruct (Hit (emit w (OnIterationStart 0))) as [s' [w' [sols [Hi [Hp Hin]]]]].
  exists s', (emit (emit w' (OnIterationEnd 0)) OnEnd), sols.
  unfold run. rewrite H1. cbn [run_from]. rewrite Hi. cbn [run_from end_].
  split; [reflexivity|]. split; [exact Hp|]. split.
  - cbn [trace emit]. rewrite <- app_assoc. apply in_app_iff. left. exact Hin.
  - cbn [trace emit]. apply last_last.
Qed.

(** Witness for [iterate_installs_strategy_result]: over three nodes, a
    strategy that returns a 1x1 matrix has it installed. *)
Lemma iterate_installs_strategy_result_witness :
  cfg_dims 3 (cfg (sys3 1 shrink_update)) /\
  exists s' w', iterate env0 powf_int (sys3 1 shrink_update) world0 = Some (s', w') /\
    nrows (pheromone s') = 1 /\ ncols (pheromone s') = 1.
Proof.
  assert (Hc : cfg_dims 3 (cfg (sys3 1 shrink_update))).
  { unfold cfg_dims; cbn. repeat split; lia. }
  split; [exact Hc|].
  destruct (iterate_installs_strategy_result env0 powf_int 3 (sys3 1 shrink_update) world0
              env0_ok ltac:(lia) Hc eq_refl eq_refl) as [[s' [w' [sols [Hi [Hp _]]]]] _].
  exists s', w'. split; [exact Hi|]. rewrite Hp. split; reflexivity.
Defined.

(** C6, counterexample: with a strategy that returns a 1x1 matrix for a
    three-node problem, a run of one iteration ends normally, with [on_end],
    and the 1x1 matrix installed as the pheromone; a run of two iterations
    panics in the second one, in grading (the shape assertion of
    [component_mul]). *)
Lemma run_installs_mismatched_pheromone :
  match run env0 powf_int (sys3 1 shrink_update) world0 with
  | Some (s', w') =>
      nrows (pheromone (sys3 1 shrink_update)) = 3 /\
      nrows (pheromone s') = 1 /\ ncols (pheromone s') = 1 /\
      last (trace w') (OnIterationStart 0) = OnEnd
  | None => False
  end /\
  run env0 powf_int (sys3 2 shrink_update) world0 = None.
Proof. vm_compute. repeat split. Qed.

Lemma iteration_segment_best (i : nat) (diags nb : list Event) (best b : Solution)
    (old new : FMatrix) :
  Forall is_println diags -> (nb = [] \/ nb = [OnNewBest best]) ->
  In (OnCurrentBest b)
    ([OnIterationStart i] ++ diags ++ [OnCurrentBest best] ++ nb ++
     [OnPheromoneUpdate old new; OnIterationEnd i]) ->
  b = best.
Proof.
  intros Hd Hnb Hin. rewrite Forall_forall in Hd.
  repeat (apply in_app_iff in Hin as [Hin|Hin]);
    try (destruct Hnb as [->| ->]);
    try (apply Hd in Hin; destruct Hin);
    simpl in Hin; repeat (destruct Hin as [Hin|Hin]; [try (injection Hin as ->; reflexivity); discriminate|]);
    destruct Hin.
Qed.

Lemma run_from_best (env : Env) (powf : Q -> Q -> Q) (k : nat) :
  forall i s w s' w', run_from env powf k i s w = Some (s', w') ->
  exists evs, trace w' = trace w ++ evs /\ cfg s' = cfg s /\
    (cost (best_sol s') <= cost (best_sol s))%Q /\
    (forall b, In (OnCurrentBest b) evs -> (cost (best_sol s') <= cost b)%Q) /\
    (best_sol s' = best_sol s \/ In (OnCurrentBest (best_sol s')) evs).
Proof.
  induction k as [|k IH]; intros i s w s' w' H; cbn [run_from] in H.
  - injection H as <- <-. exists []. rewrite app_nil_r.
    split; [reflexivity|]. split; [reflexivity|]. split; [apply Qle_refl|].
    split; [intros b []|]. left. reflexivity.
  - destruct (iterate env powf s (emit w (OnIterationStart i))) as [[s1 w1]|] eqn:E;
      [|discriminate].
    destruct (IH (S i) s1 (emit w1 (OnIterationEnd i)) s' w' H)
      as [evs' [Ht' [Hcfg' [Hle' [Hall' Hbest']]]]].
    apply iterate_shape in E as [diags [sols [best [nb [Ht1 [Hd [_ [Hb [_ Hcfg1]]]]]]]]].
    assert (Hnb : nb = [] \/ nb = [OnNewBest best])
      by (destruct Hb as [[_ [-> _]]|[_ [-> _]]]; auto).
    assert (Hs1 : (cost (best_sol s1) <= cost (best_sol s))%Q /\
                  (cost (best_sol s1) <= cost best)%Q /\
                  (best_sol s1 = best \/ best_sol s1 = best_sol s)).
    { destruct Hb as [[Hgt [_ ->]]|[Hgt [_ ->]]].
      - apply sol_gt_true in Hgt. split; [apply Qlt_le_weak; exact Hgt|].
        split; [apply Qle_refl | left; reflexivity].
      - apply sol_gt_false in Hgt. split; [apply Qle_refl|].
        split; [exact Hgt | right; reflexivity]. }
    destruct Hs1 as [Hs1s [Hs1b Hs1e]].
    set (seg := [OnIterationStart i] ++ diags ++ [OnCurrentBest best] ++ nb ++
                [OnPheromoneUpdate (pheromone s) (pheromone s1); OnIterationEnd i]).
    exists (seg ++ evs'). split.
    + rewrite Ht'. cbn [trace emit]. rewrite Ht1. cbn [trace emit]. unfold seg.
      repeat rewrite <- app_assoc. reflexivity.
    + split; [congruence|]. split; [eapply Qle_trans; eassumption|]. split.
      * intros b Hin. apply in_app_iff in Hin as [Hin|Hin]; [|exact (Hall' b Hin)].
        rewrite (iteration_segment_best i diags nb best b _ _ Hd Hnb Hin).
        eapply Qle_trans; eassumption.
      * destruct Hbest' as [Heq|Hin]; [|right; apply in_app_iff; right; exact Hin].
        rewrite Heq. destruct Hs1e as [Hs1e|Hs1e]; [|left; exact Hs1e].
        right. apply in_app_iff. left. rewrite Hs1e. unfold seg.
        apply in_app_iff. right. apply in_app_iff. right. left. reflexivity.
Qed.

(** After a run, the retained best costs no more than the initial best and
    no more than any iteration-best reported to [on_current_best]; it is
    the initial best or one of those iteration-bests. The configuration is
    never changed. *)
Theorem run_best_bound (env : Env) (powf : Q -> Q -> Q) (s s' : AntSystem) (w w' : World)
    (H : run env powf s w = Some (s', w')) :
  exists evs, trace w' = trace w ++ evs ++ [OnEnd] /\ cfg s' = cfg s /\
    (cost (best_sol s') <= cost (best_sol s))%Q /\
    (forall b, In (OnCurrentBest b) evs -> (cost (best_sol s') <= cost b)%Q) /\
    (best_sol s' = best_sol s \/ In (OnCurrentBest (best_sol s')) evs).
Proof.
  unfold run in H.
  destruct (run_from env powf (iteration (cfg s)) 0 s w) as [[s1 w1]|] eqn:E; [|discriminate].
  unfold end_ in H. injection H as <- <-.
  destruct (run_from_best env powf _ 0 s w s1 w1 E) as [evs [Ht Hrest]].
  exists evs. split; [|exact Hrest].
  cbn [trace emit]. rewrite Ht, <- app_assoc. reflexivity.
Qed.

(** Witness for [run_best_bound]: two iterations over three nodes. *)
Lemma run_best_bound_witness :
  exists s' w', run env0 powf_int (sys3 2 keep_update) world0 = Some (s', w') /\
    (cost (best_sol s') <= cost (best_sol (sys3 2 keep_update)))%Q.
Proof.
  destruct (run env0 powf_int (sys3 2 keep_update) world0) as [[s' w']|] eqn:E;
    [|vm_compute in E; discriminate].
  exists s', w'. split; [reflexivity|].
  destruct (run_best_bound env0 powf_int (sys3 2 keep_update) s' world0 w' E)
    as [evs [_ [_ [Hle _]]]].
  exact Hle.
Defined.

(* ------------------------------------------------------------------ *)
(** ** The cost of a tour *)

Lemma qsum_point (n x : nat) (f : nat -> Q) :
  x < n -> (qsum n (fun a => if a =? x then f a else 0) == f x)%Q.
Proof.
  induction n as [|n IH]; intro Hx; [lia|]. cbn [qsum].
  destruct (Nat.eq_dec x n) as [->|Hne].
  - rewrite Nat.eqb_refl, qsum_zero; [ring|].
    intros k Hk. destruct (Nat.eqb_spec k n); [lia | reflexivity].
  - rewrite IH by lia. destruct (Nat.eqb_spec n x); [lia | ring].
Qed.

Lemma entry_sum_ext (r c : nat) (f g : nat -> nat -> Q) :
  (forall a b, a < r -> b < c -> (f a b == g a b)%Q) ->
  (entry_sum r c f == entry_sum r c g)%Q.
Proof.
  intro H. unfold entry_sum. apply qsum_ext. intros a Ha. apply qsum_ext. intros b Hb.
  apply H; assumption.
Qed.

Lemma entry_sum_plus (r c : nat) (f g : nat -> nat -> Q) :
  (entry_sum r c (fun a b => f a b + g a b) == entry_sum r c f + entry_sum r c g)%Q.
Proof.
  unfold entry_sum. rewrite <- qsum_plus. apply qsum_ext. intros a _. apply qsum_plus.
Qed.

Lemma entry_sum_edge (n u v : nat) (f : nat -> nat -> Q) :
  u < n -> v < n -> u <> v ->
  (entry_sum n n (fun a b => (if edge u v a b then 1 else 0) * f a b) == f u v + f v u)%Q.
Proof.
  intros Hu Hv Huv.
  rewrite (entry_sum_ext _ _ _
    (fun a b => (if a =? u then (if b =? v then f a b else 0) else 0) +
                (if a =? v then (if b =? u then f a b else 0) else 0))%Q).
  - rewrite entry_sum_plus. unfold entry_sum.
    rewrite (qsum_ext _ _ (fun a => if a =? u then qsum n (fun b => if b =? v then f a b else 0%Q) else 0%Q))
      by (intros a _; destruct (a =? u); [reflexivity | apply qsum_zero; intros; reflexivity]).
    rewrite (qsum_ext _ (fun a => qsum n (fun b => if a =? v then (if b =? u then f a b else 0%Q) else 0%Q))
                      (fun a => if a =? v then qsum n (fun b => if b =? u then f a b else 0%Q) else 0%Q))
      by (intros a _; destruct (a =? v); [reflexivity | apply qsum_zero; intros; reflexivity]).
    rewrite (qsum_point n u (fun a => qsum n (fun b => if b =? v then f a b else 0%Q))) by exact Hu.
    rewrite (qsum_point n v (fun a => qsum n (fun b => if b =? u then f a b else 0%Q))) by exact Hv.
    rewrite (qsum_point n v (fun b => f u b)) by exact Hv.
    rewrite (qsum_point n u (fun b => f v b)) by exact Hu.
    reflexivity.
  - intros a b _ _. unfold edge.
    destruct (Nat.eqb_spec a u), (Nat.eqb_spec b v), (Nat.eqb_spec a v), (Nat.eqb_spec b u);
      subst; cbn [andb orb]; try lia; ring.
Qed.

Lemma indicator_or (b1 b2 : bool) :
  b1 && b2 = false ->
  ((if b1 || b2 then 1 else 0) == (if b1 then 1 else 0) + (if b2 then 1 else 0))%Q.
Proof. destruct b1, b2; cbn; intro H; try discriminate; reflexivity. Qed.

Lemma edge_true (u v a b : nat) :
  edge u v a b = true -> (a = u /\ b = v) \/ (a = v /\ b = u).
Proof.
  unfold edge. intro H. apply orb_true_iff in H as [H|H]; apply andb_true_iff in H as [H1 H2];
    apply Nat.eqb_eq in H1; apply Nat.eqb_eq in H2; auto.
Qed.

Section TourCost.
Variable n : nat.
Variable W : FMatrix.
Hypothesis Hsym : forall a b, a < n -> b < n -> entry W a b = entry W b a.

Lemma path_sum (p : list nat) :
  NoDup p -> (forall x, In x p -> x < n) ->
  (entry_sum n n (fun a b => (if path_adj p a b then 1 else 0) * entry W a b)
   == 2 * path_len W p)%Q.
Proof.
  induction p as [|x [|y t] IH]; intros Hnd Hlt.
  - unfold entry_sum. rewrite qsum_zero; [reflexivity|].
    intros a _. apply qsum_zero. intros b _. cbn. ring.
  - unfold entry_sum. rewrite qsum_zero; [cbn; ring|].
    intros a _. apply qsum_zero. intros b _. cbn. ring.
  - inversion Hnd as [|? ? Hx Hnd']; subst.
    assert (Hxy : x <> y) by (intro E; apply Hx; left; congruence).
    assert (Hxn : x < n) by (apply Hlt; left; reflexivity).
    assert (Hyn : y < n) by (apply Hlt; right; left; reflexivity).
    rewrite (entry_sum_ext _ _ _
      (fun a b => (if edge x y a b then 1 else 0) * entry W a b +
                  (if path_adj (y :: t) a b then 1 else 0) * entry W a b)%Q).
    + rewrite entry_sum_plus, entry_sum_edge by assumption.
      rewrite IH by (try exact Hnd'; intros z Hz; apply Hlt; right; exact Hz).
      cbn [path_len]. rewrite (Hsym y x) by assumption. ring.
    + intros a b _ _. change (path_adj (x :: y :: t) a b) with (edge x y a b || path_adj (y :: t) a b).
      rewrite indicator_or; [ring|].
      destruct (edge x y a b) eqn:Ee; [|reflexivity]. cbn [andb].
      destruct (path_adj (y :: t) a b) eqn:Ep; [|reflexivity]. exfalso.
      assert (Ha : In a (y :: t)) by (eapply path_adj_in; exact Ep).
      assert (Hb : In b (y :: t)) by (eapply path_adj_in; rewrite path_adj_sym; exact Ep).
      apply edge_true in Ee as [[-> _]|[_ ->]]; contradiction.
Qed.

Lemma cycle_sum (q : list nat) :
  NoDup q -> 3 <= List.length q -> (forall x, In x q -> x < n) ->
  (entry_sum n n (fun a b => (if cyc_adj q a b then 1 else 0) * entry W a b)
   == 2 * tour_length W q)%Q.
Proof.
  intros Hnd H3 Hlt.
  destruct q as [|h [|y [|z t]]]; cbn [List.length] in H3; try lia.
  set (q := h :: y :: z :: t) in *.
  assert (Hl : In (last q 0) (z :: t)).
  { change (last q 0) with (last (z :: t) 0). apply last_in. discriminate. }
  inversion Hnd as [|? ? Hh Hnd1]; subst.
  inversion Hnd1 as [|? ? Hy _]; subst.
  assert (Hhl : h <> last q 0) by (intro E; apply Hh; right; rewrite E; exact Hl).
  assert (Hyl : y <> last q 0) by (intro E; apply Hy; rewrite E; exact Hl).
  assert (Hhn : h < n) by (apply Hlt; left; reflexivity).
  assert (Hln : last q 0 < n) by (apply Hlt; right; right; exact Hl).
  rewrite (entry_sum_ext _ _ _
    (fun a b => (if path_adj q a b then 1 else 0) * entry W a b +
                (if edge (last q 0%nat) h a b then 1 else 0) * entry W a b)%Q).
  - rewrite entry_sum_plus, path_sum, entry_sum_edge by (auto; congruence).
    unfold tour_length. change (hd 0 q) with h. rewrite (Hsym h) by assumption. ring.
  - intros a b _ _. unfold cyc_adj. change (hd 0 q) with h.
    rewrite indicator_or; [ring|].
    destruct (edge (last q 0) h a b) eqn:Ee; [|apply andb_false_r].
    rewrite andb_true_r.
    assert (Hp : path_adj q h (last q 0) = false).
    { change (path_adj q h (last q 0)) with (edge h y h (last q 0) || path_adj (y :: z :: t) h (last q 0)).
      destruct (path_adj (y :: z :: t) h (last q 0)) eqn:E.
      - exfalso. apply Hh. eapply path_adj_in. exact E.
      - unfold edge. rewrite Nat.eqb_refl.
        destruct (Nat.eqb_spec (last q 0) y); [exfalso; apply Hyl; symmetry; assumption|].
        destruct (Nat.eqb_spec h y); [exfalso; apply Hh; left; symmetry; assumption|]. reflexivity. }
    apply edge_true in Ee as [[-> ->]|[-> ->]]; [rewrite path_adj_sym|]; exact Hp.
Qed.

End TourCost.

Lemma run_ant_cycle (env : Env) (prob : FMatrix) (pos : nat) (sol : FMatrix) (pos' : nat) :
  env_ok env -> run_ant env prob pos = Some (sol, [], pos') ->
  nrows sol = nrows prob /\ ncols sol = nrows prob /\
  exists q, Permutation q (seq 0 (nrows prob)) /\
    forall a b, entry sol a b = if cyc_adj q a b then 1%Q else 0%Q.
Proof.
  intros Henv Hrun.
  unfold run_ant in Hrun. set (n := nrows prob) in *.
  destruct (n =? 0) eqn:Hn0; [discriminate|].
  set (order := hash_order env pos n) in *.
  set (first := gen_index env pos n) in *.
  assert (Hfirst : first < n) by (apply Nat.eqb_neq in Hn0; apply (proj1 Henv); lia).
  assert (Horder : Permutation order (seq 0 n)) by apply (proj2 (proj2 Henv)).
  assert (Hnd : NoDup order)
    by (apply (Permutation_NoDup (Permutation_sym Horder)); apply seq_NoDup).
  assert (Hin : In first order)
    by (apply (Permutation_in _ (Permutation_sym Horder)); apply in_seq; lia).
  apply (ant_loop_tour n env prob n first first (remove_node first order)
           (zeros n n) (S pos) [first] sol pos');
    [exact Henv | discriminate | reflexivity | reflexivity
    | simpl; apply Permutation_sym; eapply perm_trans;
      [apply Permutation_sym, Horder | apply perm_remove_node; assumption]
    | reflexivity | reflexivity | intros; reflexivity | exact Hrun].
Qed.

(** The cost [grade] gives a tour of [run_ant] is the length of that closed
    tour: for an n x n probability matrix with [n >= 3] and a symmetric
    n x n weight matrix, a construction that ends without the abort yields
    a cycle [q] through all nodes whose edges are the solution's entries,
    and [grade_one] of the solution is the sum of the weights along [q],
    including the step back to its start. *)
Theorem run_ant_tour_cost (env : Env) (prob : FMatrix) (pos : nat) (sol : FMatrix)
    (pos' : nat) (W : FMatrix)
    (Henv : env_ok env) (H3 : 3 <= nrows prob)
    (Hrun : run_ant env prob pos = Some (sol, [], pos'))
    (HWr : nrows W = nrows prob) (HWc : ncols W = nrows prob)
    (HWsym : forall a b, a < nrows prob -> b < nrows prob -> entry W a b = entry W b a) :
  exists q c, Permutation q (seq 0 (nrows prob)) /\
    (forall a b, entry sol a b = if cyc_adj q a b then 1%Q else 0%Q) /\
    grade_one W sol = Some c /\ (c == tour_length W q)%Q.
Proof.
  destruct (run_ant_cycle env prob pos sol pos' Henv Hrun) as [Hr [Hc [q [Hq Hsol]]]].
  destruct (grade_one_Q sol W) as [c [Hg Hcv]]; [congruence | congruence |].
  exists q, c. split; [exact Hq|]. split; [exact Hsol|]. split; [exact Hg|].
  rewrite Hcv, Hr, Hc.
  assert (Hnd : NoDup q) by (apply (Permutation_NoDup (Permutation_sym Hq)); apply seq_NoDup).
  assert (Hlen : List.length q = nrows prob) by (rewrite (Permutation_length Hq); apply length_seq).
  assert (Hlt : forall x, In x q -> x < nrows prob)
    by (intros x Hx; apply (Permutation_in _ Hq) in Hx; apply in_seq in Hx; lia).
  rewrite (entry_sum_ext _ _ _
    (fun a b => (if cyc_adj q a b then 1 else 0) * entry W a b)%Q)
    by (intros a b _ _; rewrite Hsol; reflexivity).
  rewrite (cycle_sum (nrows prob) W HWsym q Hnd) by (auto; lia).
  field.
Qed.

(** Witness for [run_ant_tour_cost]: three nodes, distances [i + j]; the
    tour costs 1 + 2 + 3. *)
Lemma run_ant_tour_cost_witness :
  exists sol pos' q c, run_ant env0 (ones 3) 0 = Some (sol, [], pos') /\
    Permutation q (seq 0 3) /\ grade_one dist3 sol = Some c /\
    (c == tour_length dist3 q)%Q /\ (c == 6)%Q.
Proof.
  destruct (run_ant env0 (ones 3) 0) as [[[sol ds] p]|] eqn:E.
  - assert (Hds : ds = []) by (vm_compute in E; injection E as _ H _; symmetry; exact H).
    subst ds.
    destruct (run_ant_tour_cost env0 (ones 3) 0 sol p dist3 env0_ok (le_n 3) E
                eq_refl eq_refl)
      as [q [c [Hq [_ [Hg Hc]]]]].
    { intros a b Ha Hb. cbn [ones nrows] in Ha, Hb. unfold dist3, entry.
      rewrite Nat.add_comm. destruct (Nat.eqb_spec a b), (Nat.eqb_spec b a); congruence. }
    exists sol, p, q, c. split; [reflexivity|]. split; [exact Hq|]. split; [exact Hg|].
    split; [exact Hc|].
    vm_compute in E. injection E as Hs _. subst sol.
    vm_compute in Hg. injection Hg as <-. reflexivity.
  - vm_compute in E. discriminate.
Defined.
